(** * Verification of MichaelTJones/fibonacci (fibonacci.go)

    A shallow embedding of the Go package [fibonacci]: the static table,
    the dispatcher [Fibonacci], the helper [log2] and the three big-integer
    evaluators [fibSeries], [fibBlenkinsop] and [fibTakahashi].

    Conventions of the embedding:
    - Go's [int] is taken as a 64-bit two's complement integer, modelled as
      a [Z] with its wrap-around written out ([wrap_int]); [uint] is a [Z]
      reduced modulo 2^64 ([to_uint]).
    - [*big.Int] values are unbounded [Z].  Every variable of the evaluators
      points to an object of its own at all times (the two pointer swaps
      [a, b = b, a.Add(a, b)] and [f2, f3 = f3, f2] exchange distinct
      objects), so a method call [x.Op(y, z)] is the assignment
      [x := op y z] to the receiver, in the order Go evaluates the calls.
    - A [for] loop is run with a bound on its number of iterations (fuel);
      a run is [Done], a [Panic] (index out of range) or [OutOfFuel].
    - Runs carry the list of calls made, in order: the evaluator the
      dispatcher called and the calls of [log2], each with its argument. *)

From Stdlib Require Import ZArith List Lia Bool Arith.
Import ListNotations.
Local Open Scope Z_scope.

(** ** Go machine integers *)

Module GoInt.

Definition int_min : Z := - 2 ^ 63.
Definition int_max : Z := 2 ^ 63 - 1.

(** [n] is a value of Go's type [int]. *)
Definition is_int (n : Z) : Prop := int_min <= n <= int_max.

(** Result of an [int] operation: reduced to 64 bits, two's complement. *)
Definition wrap_int (x : Z) : Z := (x + 2 ^ 63) mod 2 ^ 64 - 2 ^ 63.

(** The conversion [uint(x)], and the result of a [uint] operation. *)
Definition to_uint (x : Z) : Z := x mod 2 ^ 64.

(** [x >> k] for a signed [x] and an unsigned count [k]: arithmetic. *)
Definition shr (x k : Z) : Z := Z.shiftr x k.

(** [x << k] on [int]. *)
Definition shl (x k : Z) : Z := wrap_int (Z.shiftl x k).

End GoInt.
Import GoInt.

(** ** Outcomes of a run, and runs that record the calls they make *)

(** The functions of the package whose calls are recorded. *)
Inductive func : Type :=
| f_log2
| f_fibSeries
| f_fibBlenkinsop
| f_fibTakahashi.

(** The call [f(n)]. *)
Inductive event : Type :=
| Call (f : func) (n : Z).

Inductive outcome (A : Type) : Type :=
| Done (a : A)
| Panic
| OutOfFuel.
Arguments Done {A} a.
Arguments Panic {A}.
Arguments OutOfFuel {A}.

(** A run: the calls made, in order, and the outcome. *)
Definition go (A : Type) : Type := (list event * outcome A)%type.

Definition calls {A} (r : go A) : list event := fst r.
Definition result {A} (r : go A) : outcome A := snd r.

(** The arguments [log2] was called with during a run. *)
Definition log2_calls {A} (r : go A) : list Z :=
  flat_map (fun e => match e with
                     | Call f_log2 n => [n]
                     | Call _ _ => []
                     end) (calls r).


(** A run [r] entered through the call [e]. *)
Definition record_call {A} (e : event) (r : go A) : go A :=
  (e :: calls r, result r).

Definition ret {A} (a : A) : go A := ([], Done a).

Definition lift {A} (o : outcome A) : go A := ([], o).

Definition bind {A B} (m : go A) (f : A -> go B) : go B :=
  match m with
  | (t, Done a) => let '(t', r) := f a in (t ++ t', r)
  | (t, Panic) => (t, Panic)
  | (t, OutOfFuel) => (t, OutOfFuel)
  end.

Notation "x <- m ;; k" := (bind m (fun x => k))
  (at level 61, m at next level, right associativity).

(** ** The [for] loop

    [for cond { body }], where [body] includes the post statement.  The
    condition is tested first; an iteration costs one unit of fuel. *)

Fixpoint for_loop {S : Type} (fuel : nat) (cond : S -> bool) (body : S -> S)
    (s : S) : outcome S :=
  if cond s then
    match fuel with
    | O => OutOfFuel
    | Datatypes.S k => for_loop k cond body (body s)
    end
  else Done s.

(** The states a loop passes through: [reaches cond body s0 s] when [s] is
    the state after some number of iterations started in [s0]. *)
Inductive reaches {S : Type} (cond : S -> bool) (body : S -> S) (s0 : S)
  : S -> Prop :=
| reaches_start : reaches cond body s0 s0
| reaches_step s : reaches cond body s0 s -> cond s = true ->
                   reaches cond body s0 (body s).

(** ** The static table *)

Definition fibonacciTable : list Z :=
  [ 0;
    1; 1; 2; 3; 5; 8; 13; 21; 34; 55; 89; 144; 233; 377; 610; 987; 1597;
    2584; 4181; 6765; 10946; 17711; 28657; 46368; 75025; 121393; 196418;
    317811; 514229; 832040; 1346269; 2178309; 3524578; 5702887; 9227465;
    14930352; 24157817; 39088169; 63245986; 102334155; 165580141;
    267914296; 433494437; 701408733; 1134903170; 1836311903; 2971215073;
    4807526976; 7778742049; 12586269025; 20365011074; 32951280099;
    53316291173; 86267571272; 139583862445; 225851433717; 365435296162;
    591286729879; 956722026041; 1548008755920; 2504730781961; 4052739537881;
    6557470319842; 10610209857723; 17167680177565; 27777890035288;
    44945570212853; 72723460248141; 117669030460994; 190392490709135;
    308061521170129; 498454011879264; 806515533049393; 1304969544928657;
    2111485077978050; 3416454622906707; 5527939700884757; 8944394323791464;
    14472334024676221; 23416728348467685; 37889062373143906;
    61305790721611591; 99194853094755497; 160500643816367088;
    259695496911122585; 420196140727489673; 679891637638612258;
    1100087778366101931; 1779979416004714189; 2880067194370816120;
    4660046610375530309; 7540113804746346429 ].

(** [fibonacciTable[n]]: an index outside the slice panics. *)
Definition table_index (n : Z) : outcome Z :=
  if (n <? 0) || (Z.of_nat (length fibonacciTable) <=? n) then Panic
  else match nth_error fibonacciTable (Z.to_nat n) with
       | Some v => Done v
       | None => Panic
       end.

(** ** [log2] *)

(** [n>>uint(bits+1) != 0] *)
Definition log2_cond (n bits : Z) : bool :=
  negb (shr n (to_uint (wrap_int (bits + 1))) =? 0).

(** [bits++] *)
Definition log2_body (bits : Z) : Z := wrap_int (bits + 1).

Definition log2 (fuel : nat) (n : Z) : outcome Z :=
  for_loop fuel (log2_cond n) log2_body 0.

(** A call of [log2] from an evaluator, recorded in the run. *)
Definition call_log2 (fuel : nat) (n : Z) : go Z :=
  ([Call f_log2 n], log2 fuel n).

(** ** [fibSeries] *)

Record series_state : Type :=
  { s_i : Z; s_a : Z; s_b : Z }.

(** [i < n] *)
Definition series_cond (n : Z) (s : series_state) : bool := s_i s <? n.

(** [a, b = b, a.Add(a, b)]: the object of [a] receives [a + b] and the two
    pointers are exchanged; then [i++]. *)
Definition series_body (s : series_state) : series_state :=
  {| s_i := wrap_int (s_i s + 1);
     s_a := s_b s;
     s_b := s_a s + s_b s |}.

Definition fibSeries (fuel : nat) (n : Z) : go Z :=
  if n <? 1 then ret 0
  else
    s <- lift (for_loop fuel (series_cond n) series_body
                 {| s_i := 0; s_a := 0; s_b := 1 |}) ;;
    ret (s_a s).

(** ** [fibBlenkinsop] *)

Record blenk_state : Type :=
  { b_h : Z; b_f1 : Z; b_f2 : Z; b_f3 : Z }.

(** [h > 0] *)
Definition blenk_cond (s : blenk_state) : bool := 0 <? b_h s.

Definition blenk_body (n : Z) (s : blenk_state) : blenk_state :=
  let h := b_h s in
  let f1 := b_f1 s in
  let f2 := b_f2 s in
  (* f3.Add(f1, f2) *)
  let f3 := f1 + f2 in
  if Z.land (shr n (to_uint (h - 1))) 1 =? 1 then
    (* f1.Add(f1, f3).Mul(f1, f2) *)
    let f1 := f1 + f3 in
    let f1 := f1 * f2 in
    (* f2.Mul(f2, f2).Add(f2, f3.Mul(f3, f3)) *)
    let f2 := f2 * f2 in
    let f3 := f3 * f3 in
    let f2 := f2 + f3 in
    {| b_h := to_uint (h - 1); b_f1 := f1; b_f2 := f2; b_f3 := f3 |}
  else
    (* f3.Add(f1, f3).Mul(f3, f2) *)
    let f3 := f1 + f3 in
    let f3 := f3 * f2 in
    (* f1.Mul(f1, f1).Add(f1, f2.Mul(f2, f2)) *)
    let f1 := f1 * f1 in
    let f2 := f2 * f2 in
    let f1 := f1 + f2 in
    (* f2, f3 = f3, f2 *)
    {| b_h := to_uint (h - 1); b_f1 := f1; b_f2 := f3; b_f3 := f2 |}.

(** The state on entry to the loop, [h] being [uint(log2(n))]. *)
Definition blenk_init (h : Z) : blenk_state :=
  {| b_h := to_uint h; b_f1 := 0; b_f2 := 1; b_f3 := 0 |}.

(** The loop of [fibBlenkinsop], up to its final state. *)
Definition blenk_loop (fuel : nat) (n h : Z) : outcome blenk_state :=
  for_loop fuel blenk_cond (blenk_body n) (blenk_init h).

Definition fibBlenkinsop (fuel : nat) (n : Z) : go Z :=
  if n <? 1 then ret 0
  else
    h <- call_log2 fuel n ;;
    s <- lift (blenk_loop fuel n h) ;;
    ret (b_f2 s).

(** ** [fibTakahashi] *)

Definition c2 : Z := 2.
Definition c3 : Z := 3.
Definition c5 : Z := 5.

Record taka_state : Type :=
  { t_i : Z; t_mask : Z; t_f : Z; t_l : Z; t_sign : Z; t_t1 : Z; t_t2 : Z }.

(** [i < bits] *)
Definition taka_cond (bits : Z) (s : taka_state) : bool := t_i s <? bits.

Definition taka_body (n : Z) (s : taka_state) : taka_state :=
  let mask := t_mask s in
  let f := t_f s in
  let l := t_l s in
  let sign := t_sign s in
  (* t1.Mul(f, f) *)
  let t1 := f * f in
  (* f.Add(f, l).Rsh(f, 1) *)
  let f := f + l in
  let f := Z.shiftr f 1 in
  (* f.Mul(f, f).Lsh(f, 1) *)
  let f := f * f in
  let f := Z.shiftl f 1 in
  (* f.Sub(f, t2.Mul(t1, c3)) *)
  let t2 := t1 * c3 in
  let f := f - t2 in
  (* f.Sub(f, t2.Mul(sign, c2)) *)
  let t2 := sign * c2 in
  let f := f - t2 in
  (* l.Mul(t1, c5) *)
  let l := t1 * c5 in
  (* l.Add(l, t2.Mul(sign, c2)) *)
  let t2 := sign * c2 in
  let l := l + t2 in
  (* sign.SetInt64(1) *)
  let sign := 1 in
  if negb (Z.land n mask =? 0) then
    (* t1.Set(f) *)
    let t1 := f in
    (* f.Add(f, l).Rsh(f, 1) *)
    let f := f + l in
    let f := Z.shiftr f 1 in
    (* t1.Lsh(t1, 1) *)
    let t1 := Z.shiftl t1 1 in
    (* l.Add(f, t1) *)
    let l := f + t1 in
    (* sign.SetInt64(-1) *)
    let sign := -1 in
    {| t_i := wrap_int (t_i s + 1); t_mask := shr mask 1;
       t_f := f; t_l := l; t_sign := sign; t_t1 := t1; t_t2 := t2 |}
  else
    {| t_i := wrap_int (t_i s + 1); t_mask := shr mask 1;
       t_f := f; t_l := l; t_sign := sign; t_t1 := t1; t_t2 := t2 |}.

(** The state on entry to the loop, [bits] being [log2(n)]. *)
Definition taka_init (bits : Z) : taka_state :=
  {| t_i := 1; t_mask := shl 1 (to_uint (wrap_int (bits - 1)));
     t_f := 1; t_l := 1; t_sign := -1; t_t1 := 0; t_t2 := 0 |}.

(** The statements after the loop. *)
Definition taka_final (n : Z) (s : taka_state) : Z :=
  let f := t_f s in
  let l := t_l s in
  if Z.land n (t_mask s) =? 0 then
    (* f.Mul(f, l) *)
    f * l
  else
    (* f.Add(f, l).Rsh(f, 1) *)
    let f := f + l in
    let f := Z.shiftr f 1 in
    (* f.Mul(f, l).Sub(f, sign) *)
    let f := f * l in
    f - t_sign s.

Definition fibTakahashi (fuel : nat) (n : Z) : go Z :=
  if n <=? 0 then ret 0
  else if n <=? 2 then ret 1
  else
    bits <- call_log2 fuel n ;;
    s <- lift (for_loop fuel (taka_cond bits) (taka_body n) (taka_init bits)) ;;
    ret (taka_final n s).

(** ** The dispatcher [Fibonacci] *)

(** The calls [fibSeries(n)], [fibBlenkinsop(n)] and [fibTakahashi(n)] from
    the dispatcher, recorded in the run before what the callee does. *)
Definition call_fibSeries (fuel : nat) (n : Z) : go Z :=
  record_call (Call f_fibSeries n) (fibSeries fuel n).

Definition call_fibBlenkinsop (fuel : nat) (n : Z) : go Z :=
  record_call (Call f_fibBlenkinsop n) (fibBlenkinsop fuel n).

Definition call_fibTakahashi (fuel : nat) (n : Z) : go Z :=
  record_call (Call f_fibTakahashi n) (fibTakahashi fuel n).

Definition Fibonacci (fuel : nat) (n : Z) : go Z :=
  if n <? 1 then ret 0
  else if n <? Z.of_nat (length fibonacciTable) then lift (table_index n)
  else if n <=? 100 then call_fibSeries fuel n
  else if n <=? 5504 then call_fibBlenkinsop fuel n
  else call_fibTakahashi fuel n.

(** ** The Fibonacci numbers *)

(** F(0) = 0, F(1) = 1, F(n) = F(n-1) + F(n-2). *)
Fixpoint fib (n : nat) : Z :=
  match n with
  | O => 0
  | Datatypes.S m =>
      match m with
      | O => 1
      | Datatypes.S k => fib m + fib k
      end
  end.

(** The same numbers over [Z] indices. *)
Definition F (n : Z) : Z := fib (Z.to_nat n).

(** A linear-time reference, used to evaluate [fib] on concrete indices. *)
Fixpoint fib_pair (n : nat) : Z * Z :=
  match n with
  | O => (0, 1)
  | Datatypes.S m => let '(a, b) := fib_pair m in (b, a + b)
  end.

(** The Lucas numbers, L(n) = 2 F(n+1) - F(n), and the sign (-1)^n. *)
Definition lucas (n : nat) : Z := 2 * fib (Datatypes.S n) - fib n.
Definition alt (n : nat) : Z := if Nat.even n then 1 else -1.

(** ** The series evaluator as the specification words it

    Start from the pair (0, 1), replace (a, b) by (b, a + b) exactly [n]
    times, return the first component. *)

Definition series_step (p : Z * Z) : Z * Z := (snd p, fst p + snd p).

Definition series_spec (n : Z) : Z :=
  fst (Nat.iter (Z.to_nat n) series_step (0, 1)).

(** The number made of the bits of [n] from bit [h] upwards: the prefix of
    [n] that a scan from the most significant bit has consumed when it
    stands at position [h]. *)
Definition prefix (n h : Z) : Z := Z.shiftr n h.

(** The invariant of the loop of [fibBlenkinsop]: with [p] the prefix of [n] at position [h],
    the pair (f1, f2) is (F(p-1), F(p)). *)
Definition blenk_inv (n : Z) (s : blenk_state) : Prop :=
  0 <= b_h s <= Z.log2 n /\
  b_f1 s = F (prefix n (b_h s) - 1) /\
  b_f2 s = F (prefix n (b_h s)).

(** The invariant of the loop of [fibTakahashi]: before iteration [i] the
    mask selects bit [bits - i], and with [k] the prefix of [n] above that
    bit, (f, l, sign) is (F(k), L(k), (-1)^k). *)
Definition taka_inv (n bits : Z) (s : taka_state) : Prop :=
  1 <= t_i s <= bits /\
  t_mask s = 2 ^ (bits - t_i s) /\
  t_f s = fib (Z.to_nat (prefix n (bits - t_i s + 1))) /\
  t_l s = lucas (Z.to_nat (prefix n (bits - t_i s + 1))) /\
  t_sign s = alt (Z.to_nat (prefix n (bits - t_i s + 1))).

(** ** [fibDouble] *)

Record double_state : Type :=
  { d_bit : Z; d_a : Z; d_b : Z; d_c : Z }.

(** [bit > 0] *)
Definition double_cond (s : double_state) : bool := 0 <? d_bit s.

Definition double_body (k : Z) (s : double_state) : double_state :=
  let bit := d_bit s in
  let a := d_a s in
  let b := d_b s in
  (* c.Mul(a, b).Add(c, c).Sub(c, a.Mul(a, a)) *)
  let c := a * b in
  let c := c + c in
  let a := a * a in
  let c := c - a in
  (* b.Add(b.Mul(b, b), a) *)
  let b := b * b in
  let b := b + a in
  (* a.Set(c) *)
  let a := c in
  if negb (Z.land (to_uint k) bit =? 0) then
    (* c.Add(a, b) *)
    let c := a + b in
    (* a.Set(b) *)
    let a := b in
    (* b.Set(c) *)
    let b := c in
    (* bit >>= 1 *)
    {| d_bit := to_uint (Z.shiftr bit 1); d_a := a; d_b := b; d_c := c |}
  else
    {| d_bit := to_uint (Z.shiftr bit 1); d_a := a; d_b := b; d_c := c |}.

(** The state on entry to the loop: [bit = 1 << 63]. *)
Definition double_init : double_state :=
  {| d_bit := to_uint (Z.shiftl 1 63); d_a := 0; d_b := 1; d_c := 0 |}.

Definition fibDouble (fuel : nat) (k : Z) : go Z :=
  s <- lift (for_loop fuel double_cond (double_body k) double_init) ;;
  ret (d_a s).

(** The number of positions a one-bit mask still has to visit: 0 for the
    mask 0, [j + 1] for the mask [2^j]. *)
Definition bits_left (bit : Z) : Z :=
  if bit =? 0 then 0 else Z.log2 bit + 1.

(** The invariant of the loop of [fibDouble]: the mask is [2^(j-1)] with [j]
    positions left (0 when none is), and with [m] the prefix of [uint64(k)]
    above them, (a, b) is (F(m), F(m+1)). *)
Definition double_inv (k : Z) (s : double_state) : Prop :=
  0 <= bits_left (d_bit s) <= 64 /\
  d_bit s = (if bits_left (d_bit s) =? 0 then 0
             else 2 ^ (bits_left (d_bit s) - 1)) /\
  d_a s = F (prefix (to_uint k) (bits_left (d_bit s))) /\
  d_b s = F (prefix (to_uint k) (bits_left (d_bit s)) + 1).

(** * Proofs *)

(** ** Runs of the model on concrete indices, one per region *)

Example Fibonacci_run_5 : Fibonacci 100 5 = ([], Done 5).
Proof. reflexivity. Qed.

Example Fibonacci_run_95 :
  Fibonacci 100 95 = ([Call f_fibSeries 95], Done 31940434634990099905).
Proof. vm_compute. reflexivity. Qed.

Example Fibonacci_run_101 :
  Fibonacci 100 101 =
  ([Call f_fibBlenkinsop 101; Call f_log2 101], Done 573147844013817084101).
Proof. vm_compute. reflexivity. Qed.

Example Fibonacci_run_3000 :
  match result (Fibonacci 100 3000), result (Fibonacci 100 2999),
        result (Fibonacci 100 2998) with
  | Done a, Done b, Done c => a =? b + c
  | _, _, _ => false
  end = true.
Proof. vm_compute. reflexivity. Qed.

Example Fibonacci_run_10000 :
  match result (Fibonacci 100 10000), result (Fibonacci 100 9999),
        result (Fibonacci 100 9998) with
  | Done a, Done b, Done c => a =? b + c
  | _, _, _ => false
  end = true.
Proof. vm_compute. reflexivity. Qed.

Example log2_run : log2 63 5505 = Done 12 /\ log2 63 1 = Done 0.
Proof. split; reflexivity. Qed.

Example log2_run_negative : log2 1000 (-8) = OutOfFuel.
Proof. vm_compute. reflexivity. Qed.

(** ** Loops *)

Section Loops.

Context {S : Type}.
Variable cond : S -> bool.
Variable body : S -> S.

Lemma reaches_front (s s' : S) :
  cond s = true -> reaches cond body (body s) s' -> reaches cond body s s'.
Proof.
  intros Hc Hr.
  induction Hr as [|t Hr IH Ht].
  - apply reaches_step; [apply reaches_start | exact Hc].
  - apply reaches_step; assumption.
Qed.

Lemma reaches_invariant (I : S -> Prop) (s0 s : S) :
  I s0 ->
  (forall t, I t -> cond t = true -> I (body t)) ->
  reaches cond body s0 s -> I s.
Proof.
  intros H0 Hstep Hr.
  induction Hr as [|t Hr IH Ht]; [exact H0 | apply Hstep; assumption].
Qed.

(** A finished loop ends in a state it reaches, where the condition is
    false. *)
Lemma for_loop_done (fuel : nat) (s s' : S) :
  for_loop fuel cond body s = Done s' ->
  reaches cond body s s' /\ cond s' = false.
Proof.
  revert s.
  induction fuel as [|k IH]; intros s; simpl;
    destruct (cond s) eqn:Hc; intros H; try discriminate.
  - injection H as <-. split; [apply reaches_start | exact Hc].
  - destruct (IH _ H) as [Hr Hf].
    split; [apply reaches_front; assumption | exact Hf].
  - injection H as <-. split; [apply reaches_start | exact Hc].
Qed.

(** Total correctness: an invariant [I] and a variant [m] that every
    iteration decreases; fuel above the variant finishes the loop. *)
Lemma for_loop_total (I : S -> Prop) (m : S -> nat) :
  (forall t, I t -> cond t = true -> I (body t) /\ (m (body t) < m t)%nat) ->
  forall (fuel : nat) (s : S),
    I s -> (m s <= fuel)%nat ->
    exists s', for_loop fuel cond body s = Done s' /\ I s' /\ cond s' = false.
Proof.
  intros Hstep fuel.
  induction fuel as [|k IH]; intros s Hs Hm; simpl;
    destruct (cond s) eqn:Hc.
  - destruct (Hstep s Hs Hc) as [_ Hlt]. lia.
  - exists s. auto.
  - destruct (Hstep s Hs Hc) as [Hb Hlt].
    apply IH; [exact Hb | lia].
  - exists s. auto.
Qed.

(** Fuel is only a bound: a loop that finishes keeps its final state under
    any larger fuel. *)
Lemma for_loop_fuel_mono (fuel fuel' : nat) (s s' : S) :
  for_loop fuel cond body s = Done s' -> (fuel <= fuel')%nat ->
  for_loop fuel' cond body s = Done s'.
Proof.
  revert fuel' s. induction fuel as [|k IH]; intros fuel' s H Hle.
  - simpl in H. destruct (cond s) eqn:Hc; [discriminate|].
    destruct fuel'; simpl; rewrite Hc; exact H.
  - simpl in H. destruct fuel' as [|k']; [lia|]. simpl.
    destruct (cond s) eqn:Hc; [apply IH; [exact H | lia] | exact H].
Qed.

(** A loop never panics. *)
Lemma for_loop_no_panic (fuel : nat) (s : S) :
  for_loop fuel cond body s <> Panic.
Proof.
  revert s.
  induction fuel as [|k IH]; intros s; simpl; destruct (cond s);
    try discriminate.
  apply IH.
Qed.

(** A loop whose condition never fails exhausts any fuel. *)
Lemma for_loop_diverges (I : S -> Prop) :
  (forall t, I t -> cond t = true /\ I (body t)) ->
  forall (fuel : nat) (s : S), I s -> for_loop fuel cond body s = OutOfFuel.
Proof.
  intros Hstep fuel.
  induction fuel as [|k IH]; intros s Hs; simpl;
    destruct (Hstep s Hs) as [-> Hb]; [reflexivity | apply IH; exact Hb].
Qed.

End Loops.

(** ** Machine integers *)

Ltac int_range := unfold is_int, int_min, int_max in *; lia.

Lemma wrap_int_small (x : Z) : is_int x -> wrap_int x = x.
Proof.
  unfold is_int, wrap_int, int_min, int_max. intros H.
  rewrite Z.mod_small; lia.
Qed.

Lemma to_uint_small (x : Z) : 0 <= x < 2 ^ 64 -> to_uint x = x.
Proof. unfold to_uint. intros H. apply Z.mod_small; exact H. Qed.

Lemma to_uint_nonneg (x : Z) : 0 <= to_uint x.
Proof. unfold to_uint. apply Z.mod_pos_bound. lia. Qed.

Lemma log2_int_bound (n : Z) : 1 <= n -> is_int n -> 0 <= Z.log2 n <= 62.
Proof.
  unfold is_int, int_max. intros H1 [_ H2]. split; [apply Z.log2_nonneg|].
  assert (Z.log2 n < 63); [|lia].
  apply Z.log2_lt_pow2; lia.
Qed.

(** ** Bits *)

Lemma shiftr_1 (x : Z) : Z.shiftr x 1 = x / 2.
Proof. rewrite Z.shiftr_div_pow2 by lia. reflexivity. Qed.

Lemma shiftl_1 (x : Z) : Z.shiftl x 1 = 2 * x.
Proof. rewrite Z.shiftl_mul_pow2 by lia. change (2 ^ 1) with 2. lia. Qed.

Lemma shiftr_double (x : Z) : Z.shiftr (2 * x) 1 = x.
Proof. rewrite shiftr_1. rewrite Z.mul_comm. apply Z.div_mul. lia. Qed.

Lemma land_1 (x : Z) : Z.land x 1 = x mod 2.
Proof. change 1 with (Z.ones 1) at 1. rewrite Z.land_ones by lia. reflexivity. Qed.

(** One more bit of [n]: the prefix at [h - 1] is twice the prefix at [h]
    plus bit [h - 1]. *)
Lemma prefix_step (n h : Z) :
  1 <= h ->
  prefix n (h - 1) = 2 * prefix n h + Z.land (Z.shiftr n (h - 1)) 1.
Proof.
  intros Hh. unfold prefix.
  replace h with ((h - 1) + 1) at 2 by lia.
  rewrite <- Z.shiftr_shiftr by lia.
  rewrite shiftr_1, land_1.
  apply Z.div_mod. lia.
Qed.

Lemma land_1_cases (x : Z) : Z.land x 1 = 0 \/ Z.land x 1 = 1.
Proof. rewrite land_1. pose proof (Z.mod_pos_bound x 2). lia. Qed.

Lemma prefix_top (n : Z) : 1 <= n -> prefix n (Z.log2 n) = 1.
Proof.
  intros Hn. unfold prefix.
  rewrite Z.shiftr_div_pow2 by apply Z.log2_nonneg.
  pose proof (Z.log2_spec n ltac:(lia)) as [Hlo Hhi].
  rewrite Z.pow_succ_r in Hhi by apply Z.log2_nonneg.
  assert (0 < 2 ^ Z.log2 n) by (apply Z.pow_pos_nonneg; [lia | apply Z.log2_nonneg]).
  symmetry. apply Z.div_unique with (r := n - 2 ^ Z.log2 n); lia.
Qed.

Lemma prefix_0 (n : Z) : prefix n 0 = n.
Proof. apply Z.shiftr_0_r. Qed.

Lemma prefix_pos (n h : Z) : 1 <= n -> 0 <= h <= Z.log2 n -> 1 <= prefix n h.
Proof.
  intros Hn Hh. unfold prefix.
  destruct (Z.lt_trichotomy (Z.shiftr n h) 0) as [Hneg | [Hz | Hpos]].
  - apply Z.shiftr_neg in Hneg. lia.
  - apply Z.shiftr_eq_0_iff in Hz. lia.
  - lia.
Qed.

(** [n & 2^k] is zero exactly when bit [k] of [n], the low bit of the
    prefix at [k], is zero. *)
Lemma land_pow2 (n k : Z) :
  0 <= k -> (Z.land n (2 ^ k) =? 0) = (Z.land (Z.shiftr n k) 1 =? 0).
Proof.
  intros Hk.
  assert (Hbit : Z.land n (2 ^ k) = if Z.testbit n k then 2 ^ k else 0).
  { apply Z.bits_inj'. intros i Hi.
    rewrite Z.land_spec, Z.pow2_bits_eqb by exact Hk.
    destruct (Z.eqb_spec k i) as [<- | Hne].
    - rewrite andb_true_r. destruct (Z.testbit n k) eqn:Hb.
      + rewrite Z.pow2_bits_eqb by exact Hk. symmetry. apply Z.eqb_refl.
      + symmetry. apply Z.bits_0.
    - rewrite andb_false_r. destruct (Z.testbit n k).
      + rewrite Z.pow2_bits_eqb by exact Hk. symmetry. apply Z.eqb_neq. exact Hne.
      + symmetry. apply Z.bits_0. }
  assert (Hlow : Z.land (Z.shiftr n k) 1 = if Z.testbit n k then 1 else 0).
  { rewrite land_1, Z.testbit_odd.
    rewrite Zmod_odd. reflexivity. }
  rewrite Hbit, Hlow.
  assert (0 < 2 ^ k) by (apply Z.pow_pos_nonneg; lia).
  destruct (Z.testbit n k).
  - destruct (Z.eqb_spec (2 ^ k) 0); [lia | reflexivity].
  - reflexivity.
Qed.

(** ** Fibonacci numbers *)

Lemma fib_SS (n : nat) : fib (S (S n)) = fib (S n) + fib n.
Proof. reflexivity. Qed.

Lemma fib_pair_spec (n : nat) : fib_pair n = (fib n, fib (S n)).
Proof.
  induction n as [|n IH]; [reflexivity|].
  cbn [fib_pair]. rewrite IH, fib_SS. f_equal. lia.
Qed.

Lemma fib_nonneg (n : nat) : 0 <= fib n /\ 0 <= fib (S n).
Proof.
  induction n as [|n [IH1 IH2]]; [cbn; lia|].
  rewrite fib_SS. lia.
Qed.

(** The addition formula F(m+n+1) = F(m+1) F(n+1) + F(m) F(n). *)
Lemma fib_add (m n : nat) :
  fib (S (m + n)) = fib (S m) * fib (S n) + fib m * fib n.
Proof.
  enough (H : fib (S (m + n)) = fib (S m) * fib (S n) + fib m * fib n /\
              fib (S (S m + n)) = fib (S (S m)) * fib (S n) + fib (S m) * fib n)
    by apply H.
  induction m as [|m [IH1 IH2]].
  - split.
    + change (fib 1) with 1. change (fib 0) with 0. cbn [Nat.add]. lia.
    + change (fib 2) with 1. change (fib 1) with 1. cbn [Nat.add].
      rewrite fib_SS. lia.
  - split; [exact IH2|].
    cbn [Nat.add] in *.
    rewrite (fib_SS (S (m + n))), IH2, IH1.
    rewrite (fib_SS (S m)), (fib_SS m). ring.
Qed.

(** Cassini's identity, in the form the evaluators use. *)
Lemma cassini (n : nat) :
  fib (S n) * fib (S n) - fib (S n) * fib n - fib n * fib n = alt n.
Proof.
  induction n as [|n IH]; [reflexivity|].
  assert (Ha : alt (S n) = - alt n).
  { unfold alt. rewrite Nat.even_succ, <- Nat.negb_even.
    destruct (Nat.even n); reflexivity. }
  rewrite Ha, <- IH, fib_SS. ring.
Qed.

Lemma alt_double (k : nat) : alt (k + k) = 1.
Proof.
  unfold alt. replace (k + k)%nat with (2 * k)%nat by lia.
  rewrite Nat.even_mul. reflexivity.
Qed.

Lemma alt_double_succ (k : nat) : alt (S (k + k)) = -1.
Proof.
  unfold alt. rewrite Nat.even_succ. replace (k + k)%nat with (2 * k)%nat by lia.
  rewrite Nat.odd_mul. reflexivity.
Qed.

(** The doubling identities. *)
Lemma fib_2k (k : nat) : fib (k + k) = fib k * (2 * fib (S k) - fib k).
Proof.
  destruct k as [|j]; [reflexivity|].
  change (S j + S j)%nat with (S (j + S j)).
  rewrite fib_add, (fib_SS j). ring.
Qed.

Lemma fib_2k1 (k : nat) :
  fib (S (k + k)) = fib k * fib k + fib (S k) * fib (S k).
Proof. rewrite fib_add. ring. Qed.

Lemma lucas_2k (k : nat) : lucas (k + k) = 5 * (fib k * fib k) + 2 * alt k.
Proof.
  unfold lucas. rewrite fib_2k1, fib_2k, <- cassini. ring.
Qed.

Lemma lucas_2k1 (k : nat) :
  lucas (S (k + k)) = fib (S (k + k)) + 2 * fib (k + k).
Proof. unfold lucas. rewrite (fib_SS (k + k)). ring. Qed.

Lemma fib_2k_sign (k : nat) :
  fib (k + k) =
  2 * (fib (S k) * fib (S k)) - fib k * fib k * 3 - alt k * 2.
Proof. rewrite fib_2k, <- cassini. ring. Qed.

Lemma fib_lucas_half (k : nat) : Z.shiftr (fib k + lucas k) 1 = fib (S k).
Proof.
  unfold lucas. replace (fib k + (2 * fib (S k) - fib k)) with (2 * fib (S k)) by ring.
  apply shiftr_double.
Qed.

Lemma fib_times_lucas (k : nat) : fib k * lucas k = fib (k + k).
Proof. unfold lucas. rewrite fib_2k. ring. Qed.

Lemma fib_succ_times_lucas (k : nat) :
  fib (S k) * lucas k - alt k = fib (S (k + k)).
Proof. unfold lucas. rewrite fib_2k1, <- cassini. ring. Qed.

(** Indices in [Z]. *)

Lemma F_0 : F 0 = 0.
Proof. reflexivity. Qed.

Lemma F_1 : F 1 = 1.
Proof. reflexivity. Qed.

Lemma F_succ (n : Z) : 0 <= n -> F (n + 1) = fib (S (Z.to_nat n)).
Proof.
  intros Hn. unfold F. f_equal. lia.
Qed.

Lemma F_rec (n : Z) : 2 <= n -> F n = F (n - 1) + F (n - 2).
Proof.
  intros Hn. unfold F.
  replace (Z.to_nat n) with (S (S (Z.to_nat (n - 2)))) by lia.
  replace (Z.to_nat (n - 1)) with (S (Z.to_nat (n - 2))) by lia.
  apply fib_SS.
Qed.

Lemma F_neg (n : Z) : n <= 0 -> F n = 0.
Proof.
  intros Hn. unfold F. replace (Z.to_nat n) with O by lia. reflexivity.
Qed.

Lemma F_eval (n : Z) : F n = fst (fib_pair (Z.to_nat n)).
Proof. unfold F. rewrite fib_pair_spec. reflexivity. Qed.

Lemma F_double (p : Z) : 0 <= p -> F (2 * p) = fib (Z.to_nat p + Z.to_nat p).
Proof. intros Hp. unfold F. f_equal. lia. Qed.

Lemma F_double_succ (p : Z) :
  0 <= p -> F (2 * p + 1) = fib (S (Z.to_nat p + Z.to_nat p)).
Proof. intros Hp. unfold F. f_equal. lia. Qed.

(** ** [log2] *)

Lemma uint_of_small_int (x : Z) : 0 <= x <= 63 -> to_uint (wrap_int x) = x.
Proof.
  intros H. rewrite wrap_int_small, to_uint_small; try reflexivity.
  - lia.
  - unfold is_int, int_min, int_max. lia.
Qed.

Lemma log2_correct (fuel : nat) (n : Z) :
  1 <= n -> is_int n -> (Z.to_nat (Z.log2 n) <= fuel)%nat ->
  log2 fuel n = Done (Z.log2 n).
Proof.
  intros Hn Hint Hfuel.
  pose proof (log2_int_bound n Hn Hint) as Hl.
  destruct (for_loop_total (log2_cond n) log2_body
              (fun bits => 0 <= bits <= Z.log2 n)
              (fun bits => Z.to_nat (Z.log2 n - bits))) with (fuel := fuel) (s := 0)
    as (r & Hrun & Hr & Hexit).
  - intros bits Hb Hc. unfold log2_cond, log2_body, shr in *.
    rewrite uint_of_small_int in Hc by lia.
    rewrite wrap_int_small by int_range.
    apply negb_true_iff, Z.eqb_neq in Hc.
    assert (~ Z.log2 n < bits + 1).
    { intros Hlt. apply Hc. apply Z.shiftr_eq_0; lia. }
    lia.
  - lia.
  - lia.
  - unfold log2. rewrite Hrun. f_equal.
    unfold log2_cond, shr in Hexit.
    rewrite uint_of_small_int in Hexit by lia.
    apply negb_false_iff, Z.eqb_eq, Z.shiftr_eq_0_iff in Hexit. lia.
Qed.

(** For a negative argument the condition of the loop never fails. *)
Lemma log2_negative_diverges (fuel : nat) (n : Z) :
  n < 0 -> log2 fuel n = OutOfFuel.
Proof.
  intros Hn. unfold log2.
  apply for_loop_diverges with (I := fun _ => True); [|exact I].
  intros bits _. split; [|exact I].
  unfold log2_cond, shr. apply negb_true_iff, Z.eqb_neq.
  pose proof (proj2 (Z.shiftr_neg n (to_uint (wrap_int (bits + 1)))) Hn). lia.
Qed.

(** ** [fibSeries] *)

Lemma series_iter (k : nat) : Nat.iter k series_step (0, 1) = fib_pair k.
Proof.
  induction k as [|k IH]; [reflexivity|].
  rewrite Nat.iter_succ, IH. cbn [fib_pair]. destruct (fib_pair k). reflexivity.
Qed.

Lemma series_spec_F (n : Z) : series_spec n = F n.
Proof. unfold series_spec. rewrite series_iter. symmetry. apply F_eval. Qed.

Lemma series_loop_correct (fuel : nat) (n : Z) :
  1 <= n -> is_int n -> (Z.to_nat n <= fuel)%nat ->
  exists s, for_loop fuel (series_cond n) series_body
              {| s_i := 0; s_a := 0; s_b := 1 |} = Done s /\
            s_i s = n /\
            (s_a s, s_b s) = Nat.iter (Z.to_nat n) series_step (0, 1).
Proof.
  intros Hn Hint Hfuel.
  destruct (for_loop_total (series_cond n) series_body
              (fun s => 0 <= s_i s <= n /\
                        (s_a s, s_b s) =
                        Nat.iter (Z.to_nat (s_i s)) series_step (0, 1))
              (fun s => Z.to_nat (n - s_i s)))
    with (fuel := fuel) (s := {| s_i := 0; s_a := 0; s_b := 1 |})
    as (s & Hrun & [Hi Hab] & Hexit).
  - intros [i a b] [Hi Hab] Hc. unfold series_cond in Hc. cbn in *.
    apply Z.ltb_lt in Hc.
    rewrite wrap_int_small by int_range.
    split; [split; [lia|] | lia].
    replace (Z.to_nat (i + 1)) with (S (Z.to_nat i)) by lia.
    rewrite Nat.iter_succ, <- Hab. reflexivity.
  - cbn. split; [lia | reflexivity].
  - cbn. lia.
  - exists s. unfold series_cond in Hexit. apply Z.ltb_ge in Hexit.
    assert (s_i s = n) as Heq by lia.
    rewrite Heq in Hab. auto.
Qed.

Lemma fibSeries_correct (fuel : nat) (n : Z) :
  1 <= n -> is_int n -> (Z.to_nat n <= fuel)%nat ->
  fibSeries fuel n = ([], Done (series_spec n)).
Proof.
  intros Hn Hint Hfuel.
  destruct (series_loop_correct fuel n Hn Hint Hfuel) as (s & Hrun & _ & Hab).
  unfold fibSeries. destruct (Z.ltb_spec n 1); [lia|].
  rewrite Hrun. cbn. unfold series_spec. rewrite <- Hab. reflexivity.
Qed.

(** ** [fibBlenkinsop] *)

(** The doubling identities on [Z] indices, from F(p-1) and F(p). *)
Lemma F_doubling (p : Z) :
  1 <= p ->
  F (2 * p - 1) = F (p - 1) * F (p - 1) + F p * F p /\
  F (2 * p) = (F (p - 1) + (F (p - 1) + F p)) * F p /\
  F (2 * p + 1) = F p * F p + (F (p - 1) + F p) * (F (p - 1) + F p).
Proof.
  intros Hp. unfold F.
  set (k := Z.to_nat (p - 1)).
  replace (Z.to_nat p) with (S k) by lia.
  replace (Z.to_nat (2 * p - 1)) with (S (k + k)) by lia.
  replace (Z.to_nat (2 * p)) with (S k + S k)%nat by lia.
  replace (Z.to_nat (2 * p + 1)) with (S (S k + S k)) by lia.
  rewrite (fib_2k1 k), (fib_2k (S k)), (fib_2k1 (S k)), (fib_SS k).
  repeat split; ring.
Qed.

Lemma blenk_inv_init (n : Z) :
  1 <= n -> is_int n -> blenk_inv n (blenk_init (Z.log2 n)).
Proof.
  intros Hn Hint. pose proof (log2_int_bound n Hn Hint) as Hl.
  unfold blenk_inv, blenk_init. cbn [b_h b_f1 b_f2].
  rewrite to_uint_small by lia.
  rewrite prefix_top by exact Hn.
  repeat split; lia.
Qed.

Lemma blenk_inv_step (n : Z) (s : blenk_state) :
  1 <= n -> is_int n ->
  blenk_inv n s -> blenk_cond s = true ->
  blenk_inv n (blenk_body n s) /\ b_h (blenk_body n s) = b_h s - 1.
Proof.
  intros Hn Hint (Hh & H1 & H2) Hc.
  pose proof (log2_int_bound n Hn Hint) as Hl.
  destruct s as [h f1 f2 f3]. unfold blenk_cond in Hc. cbn [b_h b_f1 b_f2] in *.
  apply Z.ltb_lt in Hc.
  pose proof (prefix_pos n h Hn ltac:(lia)) as Hp.
  pose proof (prefix_step n h ltac:(lia)) as Hstep.
  destruct (F_doubling (prefix n h) Hp) as (Hodd' & Heven & Hodd).
  unfold blenk_body, blenk_inv, shr. cbn [b_h b_f1 b_f2].
  rewrite to_uint_small by lia.
  destruct (land_1_cases (Z.shiftr n (h - 1))) as [Hb | Hb];
    rewrite Hb in *; cbn [Z.eqb Pos.eqb b_h b_f1 b_f2]; rewrite Hstep.
  - replace (2 * prefix n h + 0 - 1) with (2 * prefix n h - 1) by lia.
    replace (2 * prefix n h + 0) with (2 * prefix n h) by lia.
    rewrite Hodd', Heven, H1, H2. repeat split; lia.
  - replace (2 * prefix n h + 1 - 1) with (2 * prefix n h) by lia.
    rewrite Hodd, Heven, H1, H2. repeat split; lia.
Qed.

Lemma blenk_loop_correct (fuel : nat) (n : Z) :
  1 <= n -> is_int n -> (Z.to_nat (Z.log2 n) <= fuel)%nat ->
  exists s, blenk_loop fuel n (Z.log2 n) = Done s /\
            b_h s = 0 /\ b_f1 s = F (n - 1) /\ b_f2 s = F n.
Proof.
  intros Hn Hint Hfuel.
  destruct (for_loop_total blenk_cond (blenk_body n) (blenk_inv n)
              (fun s => Z.to_nat (b_h s)))
    with (fuel := fuel) (s := blenk_init (Z.log2 n))
    as (s & Hrun & (Hh & H1 & H2) & Hexit).
  - intros t Ht Hc.
    destruct (blenk_inv_step n t Hn Hint Ht Hc) as [Hinv Hdec].
    split; [exact Hinv|]. rewrite Hdec.
    unfold blenk_cond in Hc. apply Z.ltb_lt in Hc. lia.
  - apply blenk_inv_init; assumption.
  - pose proof (log2_int_bound n Hn Hint).
    unfold blenk_init. cbn [b_h]. rewrite to_uint_small by lia. exact Hfuel.
  - exists s. unfold blenk_cond in Hexit. apply Z.ltb_ge in Hexit.
    assert (b_h s = 0) as Hz by lia.
    rewrite Hz, prefix_0 in H1, H2. auto.
Qed.

Lemma fibBlenkinsop_correct (fuel : nat) (n : Z) :
  1 <= n -> is_int n -> (Z.to_nat (Z.log2 n) <= fuel)%nat ->
  fibBlenkinsop fuel n = ([Call f_log2 n], Done (F n)).
Proof.
  intros Hn Hint Hfuel.
  destruct (blenk_loop_correct fuel n Hn Hint Hfuel) as (s & Hrun & _ & _ & H2).
  unfold fibBlenkinsop, call_log2. destruct (Z.ltb_spec n 1); [lia|].
  rewrite log2_correct by assumption. cbn [bind lift].
  rewrite Hrun. cbn. rewrite H2. reflexivity.
Qed.

(** ** [fibTakahashi] *)

Lemma pow2_int (k : Z) : 0 <= k <= 61 -> is_int (2 ^ k).
Proof.
  intros Hk. unfold is_int, int_min, int_max.
  assert (0 < 2 ^ k) by (apply Z.pow_pos_nonneg; lia).
  assert (2 ^ k <= 2 ^ 61) by (apply Z.pow_le_mono_r; lia).
  lia.
Qed.

Lemma pow2_half (k : Z) : 1 <= k -> shr (2 ^ k) 1 = 2 ^ (k - 1).
Proof.
  intros Hk. unfold shr. rewrite shiftr_1.
  replace k with (Z.succ (k - 1)) at 1 by lia.
  rewrite Z.pow_succ_r by lia.
  rewrite Z.mul_comm. apply Z.div_mul. lia.
Qed.

Lemma taka_inv_init (n : Z) :
  3 <= n -> is_int n -> taka_inv n (Z.log2 n) (taka_init (Z.log2 n)).
Proof.
  intros Hn Hint.
  pose proof (log2_int_bound n ltac:(lia) Hint) as Hl.
  assert (1 <= Z.log2 n) by (apply Z.log2_le_pow2; lia).
  unfold taka_inv, taka_init, shl. cbn [t_i t_mask t_f t_l t_sign].
  rewrite uint_of_small_int by lia.
  rewrite Z.shiftl_mul_pow2, Z.mul_1_l by lia.
  rewrite wrap_int_small by (apply pow2_int; lia).
  replace (Z.log2 n - 1 + 1) with (Z.log2 n) by lia.
  rewrite prefix_top by lia.
  repeat split; lia.
Qed.

Lemma taka_inv_step (n bits : Z) (s : taka_state) :
  1 <= n -> 1 <= bits <= Z.log2 n -> bits <= 62 ->
  taka_inv n bits s -> taka_cond bits s = true ->
  taka_inv n bits (taka_body n s) /\ t_i (taka_body n s) = t_i s + 1.
Proof.
  intros Hn Hbits Hb62 (Hi & Hmask & Hf & Hl & Hsign) Hc.
  destruct s as [i mask f l sign t1 t2]. unfold taka_cond in Hc.
  cbn [t_i t_mask t_f t_l t_sign] in *. apply Z.ltb_lt in Hc.
  pose proof (prefix_pos n (bits - i + 1) Hn ltac:(lia)) as Hp.
  pose proof (prefix_step n (bits - i + 1) ltac:(lia)) as Hstep.
  replace (bits - i + 1 - 1) with (bits - i) in Hstep by lia.
  remember (prefix n (bits - i + 1)) as p eqn:Ep.
  remember (Z.to_nat p) as k eqn:Ek.
  unfold taka_body, taka_inv, c2, c3, c5. cbn [t_i t_mask t_f t_l t_sign].
  rewrite Hmask, land_pow2 by lia.
  rewrite wrap_int_small by int_range.
  rewrite Hf, Hl, Hsign, fib_lucas_half, shiftl_1, <- fib_2k_sign.
  replace (fib k * fib k * 5 + alt k * 2) with (lucas (k + k))
    by (rewrite lucas_2k; ring).
  destruct (land_1_cases (Z.shiftr n (bits - i))) as [Hb | Hb];
    rewrite Hb in *; cbn [Z.eqb negb t_i t_mask t_f t_l t_sign];
    replace (bits - (i + 1) + 1) with (bits - i) by lia;
    rewrite Hstep, pow2_half by lia.
  - replace (Z.to_nat (2 * p + 0)) with (k + k)%nat by lia.
    rewrite alt_double.
    repeat split; try lia. f_equal. lia.
  - replace (Z.to_nat (2 * p + 1)) with (S (k + k)) by lia.
    rewrite fib_lucas_half, shiftl_1, alt_double_succ, lucas_2k1.
    repeat split; try lia. f_equal. lia.
Qed.

Lemma taka_final_correct (n bits : Z) (s : taka_state) :
  1 <= n -> 1 <= bits <= Z.log2 n ->
  taka_inv n bits s -> t_i s = bits -> taka_final n s = F n.
Proof.
  intros Hn Hbits (Hi & Hmask & Hf & Hl & Hsign) Hexit.
  rewrite Hexit in *.
  replace (bits - bits + 1) with 1 in * by lia.
  replace (bits - bits) with 0 in * by lia.
  pose proof (prefix_pos n 1 Hn ltac:(lia)) as Hp.
  pose proof (prefix_step n 1 ltac:(lia)) as Hstep.
  change (1 - 1) with 0 in Hstep. rewrite prefix_0 in Hstep.
  unfold taka_final. rewrite Hmask, land_pow2 by lia.
  rewrite Hf, Hl, Hsign.
  destruct (land_1_cases (Z.shiftr n 0)) as [Hb | Hb];
    rewrite Hb in *; cbn [Z.eqb].
  - replace (F n) with (F (2 * prefix n 1)) by (f_equal; lia).
    rewrite fib_times_lucas, F_double by lia. reflexivity.
  - replace (F n) with (F (2 * prefix n 1 + 1)) by (f_equal; lia).
    rewrite fib_lucas_half, fib_succ_times_lucas, F_double_succ by lia.
    reflexivity.
Qed.

Lemma fibTakahashi_correct (fuel : nat) (n : Z) :
  1 <= n -> is_int n -> (Z.to_nat (Z.log2 n) <= fuel)%nat ->
  fibTakahashi fuel n = (if n <=? 2 then [] else [Call f_log2 n], Done (F n)).
Proof.
  intros Hn Hint Hfuel. unfold fibTakahashi.
  destruct (Z.leb_spec n 0); [lia|].
  destruct (Z.leb_spec n 2) as [H2 | H2].
  - assert (n = 1 \/ n = 2) as [-> | ->] by lia; reflexivity.
  - pose proof (log2_int_bound n Hn Hint) as Hl.
    assert (1 <= Z.log2 n) by (apply Z.log2_le_pow2; lia).
    unfold call_log2. rewrite log2_correct by assumption. cbn [bind lift].
    destruct (for_loop_total (taka_cond (Z.log2 n)) (taka_body n)
                (taka_inv n (Z.log2 n))
                (fun s => Z.to_nat (Z.log2 n - t_i s)))
      with (fuel := fuel) (s := taka_init (Z.log2 n))
      as (s & Hrun & Hinv & Hexit).
    + intros t Ht Hc.
      destruct (taka_inv_step n (Z.log2 n) t Hn ltac:(lia) ltac:(lia) Ht Hc)
        as [Hinv Hinc].
      split; [exact Hinv|]. rewrite Hinc.
      unfold taka_cond in Hc. apply Z.ltb_lt in Hc. lia.
    + apply taka_inv_init; [lia | exact Hint].
    + cbn [taka_init t_i]. lia.
    + rewrite Hrun. cbn.
      rewrite (taka_final_correct n (Z.log2 n) s Hn ltac:(lia) Hinv);
        [reflexivity|].
      unfold taka_cond in Hexit. apply Z.ltb_ge in Hexit.
      destruct Hinv as (Hi & _). lia.
Qed.

(** ** The table *)

Lemma table_length : length fibonacciTable = 93%nat.
Proof. reflexivity. Qed.

Lemma table_check :
  forallb (fun i => match nth_error fibonacciTable i with
                    | Some v => v =? fst (fib_pair i)
                    | None => false
                    end) (seq 0 93) = true.
Proof. vm_compute. reflexivity. Qed.

Lemma table_entry (i : nat) :
  (i < 93)%nat -> nth_error fibonacciTable i = Some (fib i).
Proof.
  intros Hi.
  pose proof (proj1 (forallb_forall _ _) table_check i) as H.
  cbv beta in H.
  destruct (nth_error fibonacciTable i) as [v|].
  - f_equal. rewrite fib_pair_spec in H. cbn [fst] in H.
    apply Z.eqb_eq, H, in_seq. lia.
  - discriminate H. apply in_seq. lia.
Qed.

Lemma table_range :
  forallb (fun v => (0 <=? v) && (v <=? int_max)) fibonacciTable = true.
Proof. vm_compute. reflexivity. Qed.

Lemma table_index_correct (n : Z) :
  0 <= n <= 92 -> table_index n = Done (F n).
Proof.
  intros Hn. unfold table_index. rewrite table_length.
  change (Z.of_nat 93) with 93.
  destruct (Z.ltb_spec n 0); [lia|].
  destruct (Z.leb_spec 93 n); [lia|]. cbn [orb].
  rewrite table_entry by lia. reflexivity.
Qed.

(** ** The dispatcher *)

Lemma Fibonacci_unfold (fuel : nat) (n : Z) :
  Fibonacci fuel n =
  if n <? 1 then ret 0
  else if n <? 93 then lift (table_index n)
  else if n <=? 100 then call_fibSeries fuel n
  else if n <=? 5504 then call_fibBlenkinsop fuel n
  else call_fibTakahashi fuel n.
Proof. reflexivity. Qed.

Lemma log2_le_self (n : Z) : 1 <= n -> (Z.to_nat (Z.log2 n) <= Z.to_nat n)%nat.
Proof. intros Hn. pose proof (Z.log2_le_lin n). lia. Qed.

Lemma log2_fuel (fuel : nat) (n : Z) :
  1 <= n -> is_int n -> (63 <= fuel)%nat -> (Z.to_nat (Z.log2 n) <= fuel)%nat.
Proof. intros Hn Hint Hf. pose proof (log2_int_bound n Hn Hint). lia. Qed.

Lemma Fibonacci_result (fuel : nat) (n : Z) :
  (100 <= fuel)%nat -> is_int n -> result (Fibonacci fuel n) = Done (F n).
Proof.
  intros Hfuel Hint. rewrite Fibonacci_unfold.
  destruct (Z.ltb_spec n 1).
  - rewrite F_neg by lia. reflexivity.
  - destruct (Z.ltb_spec n 93).
    + rewrite table_index_correct by lia. reflexivity.
    + destruct (Z.leb_spec n 100).
      * unfold call_fibSeries.
        rewrite fibSeries_correct, series_spec_F by (assumption || lia).
        reflexivity.
      * assert (Z.to_nat (Z.log2 n) <= fuel)%nat
          by (apply log2_fuel; assumption || lia).
        destruct (Z.leb_spec n 5504).
        -- unfold call_fibBlenkinsop.
           rewrite fibBlenkinsop_correct by (assumption || lia). reflexivity.
        -- unfold call_fibTakahashi.
           rewrite fibTakahashi_correct by (assumption || lia). reflexivity.
Qed.

(** ** Runs never panic, and the calls of [log2] they make *)

Lemma fibSeries_calls (fuel : nat) (n : Z) :
  calls (fibSeries fuel n) = [] /\ result (fibSeries fuel n) <> Panic.
Proof.
  unfold fibSeries. destruct (n <? 1); [split; [reflexivity | discriminate]|].
  pose proof (for_loop_no_panic (series_cond n) series_body fuel
                {| s_i := 0; s_a := 0; s_b := 1 |}) as Hnp.
  destruct (for_loop fuel (series_cond n) series_body _);
    cbn; split; try reflexivity; try discriminate. contradiction.
Qed.

Lemma fibBlenkinsop_calls (fuel : nat) (n : Z) :
  calls (fibBlenkinsop fuel n) = (if n <? 1 then [] else [Call f_log2 n]) /\
  result (fibBlenkinsop fuel n) <> Panic.
Proof.
  unfold fibBlenkinsop. destruct (n <? 1); [split; [reflexivity | discriminate]|].
  unfold call_log2.
  pose proof (for_loop_no_panic (log2_cond n) log2_body fuel 0) as Hlg.
  fold (log2 fuel n) in Hlg.
  destruct (log2 fuel n) as [h| |];
    cbn [bind lift]; [| contradiction | split; [reflexivity | discriminate]].
  pose proof (for_loop_no_panic blenk_cond (blenk_body n) fuel (blenk_init h))
    as Hnp.
  fold (blenk_loop fuel n h) in Hnp.
  destruct (blenk_loop fuel n h);
    cbn; split; try reflexivity; try discriminate. contradiction.
Qed.

Lemma fibTakahashi_calls (fuel : nat) (n : Z) :
  calls (fibTakahashi fuel n) = (if n <=? 2 then [] else [Call f_log2 n]) /\
  result (fibTakahashi fuel n) <> Panic.
Proof.
  unfold fibTakahashi.
  destruct (Z.leb_spec n 0).
  { destruct (Z.leb_spec n 2); [|lia]. split; [reflexivity | discriminate]. }
  destruct (n <=? 2); [split; [reflexivity | discriminate]|].
  unfold call_log2.
  pose proof (for_loop_no_panic (log2_cond n) log2_body fuel 0) as Hlg.
  fold (log2 fuel n) in Hlg.
  destruct (log2 fuel n) as [bits| |];
    cbn [bind lift]; [| contradiction | split; [reflexivity | discriminate]].
  pose proof (for_loop_no_panic (taka_cond bits) (taka_body n) fuel
                (taka_init bits)) as Hnp.
  destruct (for_loop fuel (taka_cond bits) (taka_body n) (taka_init bits));
    cbn; split; try reflexivity; try discriminate. contradiction.
Qed.

Lemma Fibonacci_calls (fuel : nat) (n : Z) :
  calls (Fibonacci fuel n) =
  (if n <=? 92 then []
   else if n <=? 100 then [Call f_fibSeries n]
   else if n <=? 5504 then [Call f_fibBlenkinsop n; Call f_log2 n]
   else [Call f_fibTakahashi n; Call f_log2 n]) /\
  result (Fibonacci fuel n) <> Panic.
Proof.
  rewrite Fibonacci_unfold.
  destruct (Z.ltb_spec n 1).
  { destruct (Z.leb_spec n 92); [|lia]. split; [reflexivity | discriminate]. }
  destruct (Z.ltb_spec n 93).
  { destruct (Z.leb_spec n 92); [|lia].
    rewrite table_index_correct by lia. split; [reflexivity | discriminate]. }
  destruct (Z.leb_spec n 92); [lia|].
  destruct (Z.leb_spec n 100).
  { destruct (fibSeries_calls fuel n) as [Hc Hp].
    unfold call_fibSeries, record_call. rewrite Hc. auto. }
  destruct (Z.leb_spec n 5504).
  - destruct (fibBlenkinsop_calls fuel n) as [Hc Hp].
    unfold call_fibBlenkinsop, record_call. rewrite Hc.
    destruct (Z.ltb_spec n 1); [lia|]. auto.
  - destruct (fibTakahashi_calls fuel n) as [Hc Hp].
    unfold call_fibTakahashi, record_call. rewrite Hc.
    destruct (Z.leb_spec n 2); [lia|]. auto.
Qed.

(** * The claims *)

Lemma is_int_small (n : Z) : - 2 ^ 63 <= n <= 2 ^ 63 - 1 -> is_int n.
Proof. intros H. exact H. Qed.

(** C1: for every index n >= 0 that is a Go [int], and fuel for the longest
    loop of the dispatcher's regions, [Fibonacci n] is the exact integer
    F(n), where F(0) = 0, F(1) = 1 and F(n) = F(n-1) + F(n-2) for n >= 2;
    in particular the values computed at n, n-1 and n-2 satisfy
    compute(n) = compute(n-1) + compute(n-2) for every n >= 2, whatever
    regions the three indices fall in. *)
Theorem Fibonacci_computes_F (fuel : nat) (n : Z) :
  (100 <= fuel)%nat -> 0 <= n -> is_int n ->
  result (Fibonacci fuel n) = Done (F n) /\
  F 0 = 0 /\ F 1 = 1 /\
  (2 <= n ->
   F n = F (n - 1) + F (n - 2) /\
   exists a b c : Z,
     result (Fibonacci fuel n) = Done a /\
     result (Fibonacci fuel (n - 1)) = Done b /\
     result (Fibonacci fuel (n - 2)) = Done c /\
     a = b + c).
Proof.
  intros Hfuel Hn Hint.
  split; [apply Fibonacci_result; assumption|].
  split; [exact F_0|]. split; [exact F_1|].
  intros H2. split; [apply F_rec; exact H2|].
  exists (F n), (F (n - 1)), (F (n - 2)).
  assert (is_int (n - 1)) by int_range.
  assert (is_int (n - 2)) by int_range.
  repeat split; try (apply Fibonacci_result; assumption).
  apply F_rec; exact H2.
Qed.

Lemma Fibonacci_computes_F_witness :
  result (Fibonacci 100 3000) = Done (F 3000) /\
  F 0 = 0 /\ F 1 = 1 /\
  (2 <= 3000 ->
   F 3000 = F (3000 - 1) + F (3000 - 2) /\
   exists a b c : Z,
     result (Fibonacci 100 3000) = Done a /\
     result (Fibonacci 100 (3000 - 1)) = Done b /\
     result (Fibonacci 100 (3000 - 2)) = Done c /\
     a = b + c).
Proof.
  apply (Fibonacci_computes_F 100 3000);
    [lia | lia | apply is_int_small; lia].
Defined.

(** C2: the three evaluators return the same value, F(n), for every n >= 1
    (fuel covering the n iterations of the series loop); at n = 100 the series
    and the bit-scanning identity evaluators both return
    354224848179261915075, and at n = 5504 and n = 5505 the bit-scanning
    identity and the Lucas-sequence evaluators return equal values. *)
Theorem evaluators_agree (fuel : nat) (n : Z) :
  1 <= n -> is_int n -> (Z.to_nat n <= fuel)%nat ->
  (result (fibSeries fuel n) = result (fibBlenkinsop fuel n) /\
   result (fibBlenkinsop fuel n) = result (fibTakahashi fuel n) /\
   result (fibTakahashi fuel n) = Done (F n)) /\
  (result (fibSeries 100 100) = Done 354224848179261915075 /\
   result (fibBlenkinsop 100 100) = Done 354224848179261915075) /\
  (result (fibBlenkinsop 64 5504) = result (fibTakahashi 64 5504) /\
   result (fibBlenkinsop 64 5504) = Done (F 5504)) /\
  (result (fibBlenkinsop 64 5505) = result (fibTakahashi 64 5505) /\
   result (fibBlenkinsop 64 5505) = Done (F 5505)).
Proof.
  intros Hn Hint Hfuel.
  assert (Hlg : (Z.to_nat (Z.log2 n) <= fuel)%nat)
    by (pose proof (log2_le_self n Hn); lia).
  split; [|split; [|split]].
  - rewrite fibSeries_correct, fibBlenkinsop_correct, fibTakahashi_correct,
      series_spec_F by assumption.
    repeat split; reflexivity.
  - split; vm_compute; reflexivity.
  - split; [vm_compute; reflexivity|].
    rewrite fibBlenkinsop_correct;
      [reflexivity | lia | apply is_int_small; lia | vm_compute; lia].
  - split; [vm_compute; reflexivity|].
    rewrite fibBlenkinsop_correct;
      [reflexivity | lia | apply is_int_small; lia | vm_compute; lia].
Qed.

Lemma evaluators_agree_witness :
  result (fibSeries 120 120) = result (fibBlenkinsop 120 120) /\
  result (fibBlenkinsop 120 120) = result (fibTakahashi 120 120) /\
  result (fibTakahashi 120 120) = Done (F 120).
Proof.
  refine (proj1 (evaluators_agree 120 120 _ _ _));
    [lia | apply is_int_small; lia | vm_compute; lia].
Defined.



(** C4: for every n < 1, negative ones included, [Fibonacci n] returns 0
    without running any loop; and no input produces a failure: no run
    panics, and every Go [int] yields a value. *)
Theorem Fibonacci_clamps_below_one (fuel : nat) (n : Z) :
  (n < 1 -> Fibonacci fuel n = ([], Done 0)) /\
  result (Fibonacci fuel n) <> Panic /\
  ((100 <= fuel)%nat -> is_int n ->
   exists v : Z, result (Fibonacci fuel n) = Done v).
Proof.
  split; [|split].
  - intros Hn. rewrite Fibonacci_unfold.
    destruct (Z.ltb_spec n 1); [reflexivity | lia].
  - apply Fibonacci_calls.
  - intros Hfuel Hint. exists (F n). apply Fibonacci_result; assumption.
Qed.

Lemma Fibonacci_clamps_below_one_witness :
  Fibonacci 0 (-5) = ([], Done 0) /\
  Fibonacci 0 0 = ([], Done 0) /\
  exists v : Z, result (Fibonacci 100 (- 2 ^ 63)) = Done v.
Proof.
  repeat apply conj.
  - apply (proj1 (Fibonacci_clamps_below_one 0 (-5))). lia.
  - apply (proj1 (Fibonacci_clamps_below_one 0 0)). lia.
  - apply (proj2 (proj2 (Fibonacci_clamps_below_one 100 (- 2 ^ 63))));
      [lia | apply is_int_small; lia].
Defined.

(** C5: the table has exactly 93 entries, each a non-negative 64-bit
    integer; the entry at position i is F(i) for every 0 <= i <= 92, and
    [Fibonacci] returns it for those indices; compute(10) = 55,
    compute(50) = 12586269025 and compute(92) = 7540113804746346429. *)
Theorem fibonacciTable_spec :
  length fibonacciTable = 93%nat /\
  Forall (fun v => 0 <= v <= int_max) fibonacciTable /\
  (forall (fuel : nat) (i : Z),
     0 <= i <= 92 ->
     nth_error fibonacciTable (Z.to_nat i) = Some (F i) /\
     Fibonacci fuel i = ([], Done (F i))) /\
  (forall fuel : nat,
     Fibonacci fuel 10 = ([], Done 55) /\
     Fibonacci fuel 50 = ([], Done 12586269025) /\
     Fibonacci fuel 92 = ([], Done 7540113804746346429)).
Proof.
  split; [exact table_length|]. split; [|split].
  - apply Forall_forall. intros v Hv.
    pose proof (proj1 (forallb_forall _ _) table_range v Hv) as H.
    cbv beta in H. apply andb_true_iff in H as [H1 H2].
    apply Z.leb_le in H1, H2. lia.
  - intros fuel i Hi. split; [apply table_entry; lia|].
    rewrite Fibonacci_unfold.
    destruct (Z.ltb_spec i 1).
    + assert (i = 0) as -> by lia. reflexivity.
    + destruct (Z.ltb_spec i 93); [|lia].
      rewrite table_index_correct by lia. reflexivity.
  - intros fuel. repeat split; reflexivity.
Qed.

Lemma fibonacciTable_spec_witness :
  nth_error fibonacciTable (Z.to_nat 92) = Some (F 92) /\
  Fibonacci 0 92 = ([], Done (F 92)).
Proof.
  apply (proj1 (proj2 (proj2 fibonacciTable_spec)) 0%nat 92). lia.
Defined.

(** C6, as the code has it: in [fibBlenkinsop], for every n >= 1, the
    running pair (f1, f2) starts as (0, 1) and after each loop step is
    (F(p-1), F(p)), where p >= 1 is the prefix of n read from its most
    significant bit down to the position [h] the scan stands at (p = 1 on
    entry); after all bits are consumed p = n, the evaluator returns
    f2 = F(n), and f1 = F(n-1). *)
Theorem fibBlenkinsop_invariant (n : Z) :
  1 <= n -> is_int n ->
  ((b_f1 (blenk_init (Z.log2 n)), b_f2 (blenk_init (Z.log2 n))) = (0, 1) /\
   prefix n (b_h (blenk_init (Z.log2 n))) = 1) /\
  (forall s : blenk_state,
     reaches blenk_cond (blenk_body n) (blenk_init (Z.log2 n)) s ->
     1 <= prefix n (b_h s) /\
     (b_f1 s, b_f2 s) = (F (prefix n (b_h s) - 1), F (prefix n (b_h s)))) /\
  (forall fuel : nat,
     (Z.to_nat (Z.log2 n) <= fuel)%nat ->
     exists s : blenk_state,
       blenk_loop fuel n (Z.log2 n) = Done s /\
       prefix n (b_h s) = n /\
       b_f1 s = F (n - 1) /\ b_f2 s = F n /\
       fibBlenkinsop fuel n = ([Call f_log2 n], Done (b_f2 s))).
Proof.
  intros Hn Hint.
  pose proof (log2_int_bound n Hn Hint) as Hl.
  split; [|split].
  - split; [reflexivity|].
    unfold blenk_init. cbn [b_h]. rewrite to_uint_small by lia.
    apply prefix_top; exact Hn.
  - intros s Hs.
    assert (blenk_inv n s) as (Hh & H1 & H2).
    { apply reaches_invariant
        with (cond := blenk_cond) (body := blenk_body n)
             (s0 := blenk_init (Z.log2 n)).
      - apply blenk_inv_init; assumption.
      - intros t Ht Hc. apply blenk_inv_step; assumption.
      - exact Hs. }
    split; [apply prefix_pos; assumption|].
    rewrite H1, H2. reflexivity.
  - intros fuel Hfuel.
    destruct (blenk_loop_correct fuel n Hn Hint Hfuel) as (s & Hrun & Hz & H1 & H2).
    exists s. repeat split; try assumption.
    + rewrite Hz. apply prefix_0.
    + rewrite H2. apply fibBlenkinsop_correct; assumption.
Qed.

Lemma fibBlenkinsop_invariant_witness :
  exists s : blenk_state,
    blenk_loop 64 3000 (Z.log2 3000) = Done s /\
    prefix 3000 (b_h s) = 3000 /\
    b_f1 s = F (3000 - 1) /\ b_f2 s = F 3000 /\
    fibBlenkinsop 64 3000 = ([Call f_log2 3000], Done (b_f2 s)).
Proof.
  refine (proj2 (proj2 (fibBlenkinsop_invariant 3000 _ _)) 64%nat _);
    [lia | apply is_int_small; lia | vm_compute; lia].
Defined.

(** C6, as stated, fails at n = 3 (binary 11).  The loop runs one step and
    ends with (f1, f2) = (1, 2), which [fibBlenkinsop] returns as f2 = 2 =
    F(3).  The pair is not (F(k), F(k+1)) for the prefix k = 3 that the scan
    has consumed, nor for k = 1, the bits below the leading one; and f1 = 1
    is not F(3), so returning f1 would not be equivalent. *)
Lemma fibBlenkinsop_pair_counterexample :
  exists s : blenk_state,
    blenk_loop 64 3 (Z.log2 3) = Done s /\
    fibBlenkinsop 64 3 = ([Call f_log2 3], Done (b_f2 s)) /\
    prefix 3 (b_h s) = 3 /\
    (b_f1 s, b_f2 s) = (1, 2) /\
    (b_f1 s, b_f2 s) <> (F (prefix 3 (b_h s)), F (prefix 3 (b_h s) + 1)) /\
    (b_f1 s, b_f2 s) <> (F 1, F 2) /\
    b_f1 s <> F 3.
Proof.
  exists {| b_h := 0; b_f1 := 1; b_f2 := 2; b_f3 := 1 |}.
  repeat split; try (vm_compute; reflexivity);
    vm_compute; intros H; discriminate H.
Qed.

(** C7: for every n >= 1, the loop of [fibSeries] started from
    (a, b) = (0, 1) stops after exactly n iterations, each replacing (a, b)
    by (b, a + b); [fibSeries n] returns the [a] of the final state, which
    is the value of that iteration and is F(n). *)
Theorem fibSeries_iterates (fuel : nat) (n : Z) :
  1 <= n -> is_int n -> (Z.to_nat n <= fuel)%nat ->
  (exists s : series_state,
     for_loop fuel (series_cond n) series_body
       {| s_i := 0; s_a := 0; s_b := 1 |} = Done s /\
     s_i s = n /\
     (s_a s, s_b s) = Nat.iter (Z.to_nat n) series_step (0, 1) /\
     fibSeries fuel n = ([], Done (s_a s))) /\
  result (fibSeries fuel n) = Done (series_spec n) /\
  series_spec n = F n.
Proof.
  intros Hn Hint Hfuel.
  pose proof (fibSeries_correct fuel n Hn Hint Hfuel) as Hs.
  split; [|split].
  - destruct (series_loop_correct fuel n Hn Hint Hfuel) as (s & Hrun & Hi & Hab).
    exists s. repeat split; try assumption.
    rewrite Hs. unfold series_spec. rewrite <- Hab. reflexivity.
  - rewrite Hs. reflexivity.
  - apply series_spec_F.
Qed.

Lemma fibSeries_iterates_witness :
  result (fibSeries 95 95) = Done (series_spec 95) /\ series_spec 95 = F 95.
Proof.
  refine (proj2 (fibSeries_iterates 95 95 _ _ _));
    [lia | apply is_int_small; lia | vm_compute; lia].
Defined.

(** C8: [fibTakahashi] settles its edge cases before the bit scan, without
    calling [log2] or running a loop: it returns 0 for every n <= 0, and 1
    for n = 1 and for n = 2. *)
Theorem fibTakahashi_edge_cases (fuel : nat) (n : Z) :
  (n <= 0 -> fibTakahashi fuel n = ([], Done 0)) /\
  (n = 1 \/ n = 2 -> fibTakahashi fuel n = ([], Done 1)).
Proof.
  unfold fibTakahashi. split.
  - intros Hn. destruct (Z.leb_spec n 0); [reflexivity | lia].
  - intros [-> | ->]; reflexivity.
Qed.

Lemma fibTakahashi_edge_cases_witness :
  fibTakahashi 0 (-4) = ([], Done 0) /\
  fibTakahashi 0 0 = ([], Done 0) /\
  fibTakahashi 0 1 = ([], Done 1) /\
  fibTakahashi 0 2 = ([], Done 1).
Proof.
  repeat apply conj.
  - apply (proj1 (fibTakahashi_edge_cases 0 (-4))). lia.
  - apply (proj1 (fibTakahashi_edge_cases 0 0)). lia.
  - apply (proj2 (fibTakahashi_edge_cases 0 1)). left. reflexivity.
  - apply (proj2 (fibTakahashi_edge_cases 0 2)). right. reflexivity.
Defined.

(** C9: for every n >= 1, [log2 n] returns floor(log2(n)): the r with
    2^r <= n < 2^(r+1), the position of the most significant set bit of n. *)
Theorem log2_floor (fuel : nat) (n : Z) :
  1 <= n -> is_int n -> (Z.to_nat (Z.log2 n) <= fuel)%nat ->
  exists r : Z,
    log2 fuel n = Done r /\
    0 <= r /\ 2 ^ r <= n < 2 ^ (r + 1) /\
    Z.testbit n r = true /\
    (forall j : Z, r < j -> Z.testbit n j = false).
Proof.
  intros Hn Hint Hfuel. exists (Z.log2 n).
  split; [apply log2_correct; assumption|].
  split; [apply Z.log2_nonneg|].
  split; [apply Z.log2_spec; lia|].
  split; [apply Z.bit_log2; lia|].
  intros j Hj. apply Z.bits_above_log2; lia.
Qed.

Lemma log2_floor_witness :
  exists r : Z,
    log2 63 5505 = Done r /\
    0 <= r /\ 2 ^ r <= 5505 < 2 ^ (r + 1) /\
    Z.testbit 5505 r = true /\
    (forall j : Z, r < j -> Z.testbit 5505 j = false).
Proof.
  apply (log2_floor 63 5505);
    [lia | apply is_int_small; lia | vm_compute; lia].
Defined.

(** C10: [Fibonacci n] terminates for every Go [int] n, positive, zero or
    negative.  Every call of [log2], from the dispatcher or from
    [fibBlenkinsop] and [fibTakahashi] called on any n, has an argument
    >= 1 (from the dispatcher, >= 101); the loop of [log2] terminates for
    every argument >= 1; for a negative argument it exhausts any fuel, and
    so does any run that calls it. *)
Theorem Fibonacci_terminates (fuel : nat) (n : Z) :
  ((100 <= fuel)%nat -> is_int n ->
   exists v : Z, result (Fibonacci fuel n) = Done v) /\
  (Forall (fun m => 101 <= m) (log2_calls (Fibonacci fuel n)) /\
   Forall (fun m => 1 <= m) (log2_calls (fibBlenkinsop fuel n)) /\
   Forall (fun m => 1 <= m) (log2_calls (fibTakahashi fuel n))) /\
  (1 <= n -> is_int n -> (63 <= fuel)%nat ->
   exists r : Z, log2 fuel n = Done r) /\
  (n < 0 ->
   log2 fuel n = OutOfFuel /\
   forall (B : Type) (k : Z -> go B),
     result (h <- call_log2 fuel n ;; k h) = OutOfFuel).
Proof.
  split; [|split; [|split]].
  - intros Hfuel Hint. exists (F n). apply Fibonacci_result; assumption.
  - unfold log2_calls.
    destruct (Fibonacci_calls fuel n) as [-> _].
    destruct (fibBlenkinsop_calls fuel n) as [-> _].
    destruct (fibTakahashi_calls fuel n) as [-> _].
    destruct (Z.leb_spec n 92), (Z.leb_spec n 100), (Z.leb_spec n 5504),
             (Z.ltb_spec n 1), (Z.leb_spec n 2);
      cbn [flat_map app]; repeat split; repeat constructor; lia.
  - intros Hn Hint Hfuel. exists (Z.log2 n).
    apply log2_correct; try assumption. apply log2_fuel; assumption.
  - intros Hn. split; [apply log2_negative_diverges; exact Hn|].
    intros B k. unfold call_log2, bind.
    rewrite log2_negative_diverges by exact Hn. reflexivity.
Qed.

Lemma Fibonacci_terminates_witness :
  (exists v : Z, result (Fibonacci 100 (2 ^ 63 - 1)) = Done v) /\
  (exists v : Z, result (Fibonacci 100 (- 2 ^ 63)) = Done v) /\
  (exists r : Z, log2 100 (2 ^ 63 - 1) = Done r) /\
  log2 100 (-1) = OutOfFuel.
Proof.
  repeat apply conj.
  - apply (proj1 (Fibonacci_terminates 100 (2 ^ 63 - 1)));
      [lia | apply is_int_small; lia].
  - apply (proj1 (Fibonacci_terminates 100 (- 2 ^ 63)));
      [lia | apply is_int_small; lia].
  - apply (proj1 (proj2 (proj2 (Fibonacci_terminates 100 (2 ^ 63 - 1)))));
      [lia | apply is_int_small; lia | lia].
  - refine (proj1 (proj2 (proj2 (proj2 (Fibonacci_terminates 100 (-1)))) _)).
    lia.
Defined.

(** * Beyond the claims *)

(** ** More on loops: the exact number of iterations *)

Section LoopCount.

Context {S : Type}.
Variable cond : S -> bool.
Variable body : S -> S.

(** With a variant that every iteration decreases by exactly one and that
    is zero when the condition fails, fuel below the variant is exhausted. *)
Lemma for_loop_out_of_fuel (I : S -> Prop) (m : S -> nat) :
  (forall t, I t -> cond t = true ->
             I (body t) /\ Datatypes.S (m (body t)) = m t) ->
  (forall t, I t -> cond t = false -> m t = O) ->
  forall (fuel : nat) (s : S),
    I s -> (fuel < m s)%nat -> for_loop fuel cond body s = OutOfFuel.
Proof.
  intros Hstep Hexit fuel.
  induction fuel as [|k IH]; intros s Hs Hlt; simpl;
    destruct (cond s) eqn:Hc.
  - reflexivity.
  - rewrite (Hexit s Hs Hc) in Hlt. lia.
  - destruct (Hstep s Hs Hc) as [Hb Hm]. apply IH; [exact Hb | lia].
  - rewrite (Hexit s Hs Hc) in Hlt. lia.
Qed.

End LoopCount.

(** ** More on Fibonacci numbers *)

Lemma fib_pos (n : nat) : (1 <= n)%nat -> 0 < fib n.
Proof.
  intros Hn. destruct n as [|n]; [lia|]. clear Hn.
  induction n as [|n IH]; [reflexivity|].
  rewrite fib_SS. pose proof (fib_nonneg n). lia.
Qed.

Lemma fib_mono (m n : nat) : (m <= n)%nat -> fib m <= fib n.
Proof.
  induction 1 as [|n Hle IH]; [lia|].
  apply Z.le_trans with (fib n); [exact IH|].
  destruct n as [|n]; [cbn; lia|].
  rewrite fib_SS. pose proof (fib_nonneg n). lia.
Qed.

Lemma fib_strict (m n : nat) : (2 <= m)%nat -> (m < n)%nat -> fib m < fib n.
Proof.
  intros Hm Hlt.
  apply Z.lt_le_trans with (fib (S m)); [|apply fib_mono; lia].
  destruct m as [|m]; [lia|]. rewrite fib_SS.
  pose proof (fib_pos m ltac:(lia)). lia.
Qed.

Lemma fib_lt_pow2 (n : nat) : fib n < 2 ^ Z.of_nat n.
Proof.
  enough (H : fib n < 2 ^ Z.of_nat n /\ fib (S n) < 2 ^ Z.of_nat (S n))
    by apply H.
  induction n as [|n [IH1 IH2]]; [split; reflexivity|].
  split; [exact IH2|].
  rewrite fib_SS.
  rewrite Nat2Z.inj_succ, Z.pow_succ_r in IH2 |- * by lia.
  rewrite Nat2Z.inj_succ, Z.pow_succ_r by lia.
  lia.
Qed.

Lemma F_nonneg (n : Z) : 0 <= F n.
Proof. unfold F. apply fib_nonneg. Qed.

Lemma F_mono (m n : Z) : m <= n -> F m <= F n.
Proof. intros H. unfold F. apply fib_mono. lia. Qed.

Lemma F_step (x : Z) : 0 <= x -> F (x + 2) = F (x + 1) + F x.
Proof. intros Hx. rewrite (F_rec (x + 2)) by lia. f_equal; f_equal; lia. Qed.

(** The doubling identities from F(m) and F(m+1). *)
Lemma F_doubling_up (m : Z) :
  0 <= m ->
  F (2 * m) = F m * F (m + 1) + F m * F (m + 1) - F m * F m /\
  F (2 * m + 1) = F (m + 1) * F (m + 1) + F m * F m.
Proof.
  intros Hm. rewrite F_double, F_double_succ, F_succ by lia.
  rewrite fib_2k, fib_2k1. unfold F. split; ring.
Qed.

(** ** [fibDouble] *)

Lemma to_uint_bound (x : Z) : 0 <= to_uint x < 2 ^ 64.
Proof. unfold to_uint. apply Z.mod_pos_bound. lia. Qed.

Lemma to_uint_negative (k : Z) : is_int k -> k < 0 -> to_uint k = k + 2 ^ 64.
Proof.
  intros Hint Hk. unfold to_uint.
  symmetry. apply Z.mod_unique with (q := -1); [left; int_range | lia].
Qed.

Lemma prefix_nonneg (u h : Z) : 0 <= u -> 0 <= prefix u h.
Proof. intros Hu. unfold prefix. apply Z.shiftr_nonneg. exact Hu. Qed.

Lemma prefix_uint_64 (k : Z) : prefix (to_uint k) 64 = 0.
Proof.
  unfold prefix. rewrite Z.shiftr_div_pow2 by lia.
  apply Z.div_small. apply to_uint_bound.
Qed.

Lemma bits_left_pow2 (j : Z) : 0 <= j -> bits_left (2 ^ j) = j + 1.
Proof.
  intros Hj. unfold bits_left.
  assert (0 < 2 ^ j) by (apply Z.pow_pos_nonneg; lia).
  destruct (Z.eqb_spec (2 ^ j) 0); [lia|].
  rewrite Z.log2_pow2 by exact Hj. reflexivity.
Qed.

(** [bit >>= 1] on a one-bit mask with [j] positions left. *)
Lemma mask_next (j : Z) :
  1 <= j <= 64 ->
  bits_left (to_uint (Z.shiftr (2 ^ (j - 1)) 1)) = j - 1 /\
  to_uint (Z.shiftr (2 ^ (j - 1)) 1) =
  (if j - 1 =? 0 then 0 else 2 ^ (j - 1 - 1)).
Proof.
  intros Hj. destruct (Z.eqb_spec (j - 1) 0) as [Hz | Hnz].
  - rewrite Hz. split; reflexivity.
  - pose proof (pow2_half (j - 1) ltac:(lia)) as Hh. unfold shr in Hh.
    rewrite Hh.
    assert (0 < 2 ^ (j - 1 - 1)) by (apply Z.pow_pos_nonneg; lia).
    assert (2 ^ (j - 1 - 1) <= 2 ^ 62) by (apply Z.pow_le_mono_r; lia).
    rewrite to_uint_small by lia.
    split; [|reflexivity].
    rewrite bits_left_pow2 by lia. lia.
Qed.

Lemma double_inv_init (k : Z) : double_inv k double_init.
Proof.
  unfold double_inv, double_init. cbn [d_bit d_a d_b].
  change (to_uint (Z.shiftl 1 63)) with (2 ^ 63).
  change (bits_left (2 ^ 63)) with 64.
  rewrite prefix_uint_64.
  repeat split; try reflexivity; lia.
Qed.

Lemma double_inv_step (k : Z) (s : double_state) :
  double_inv k s -> double_cond s = true ->
  double_inv k (double_body k s) /\
  bits_left (d_bit (double_body k s)) = bits_left (d_bit s) - 1.
Proof.
  intros (Hj & Hbit & Ha & Hb) Hc.
  destruct s as [bit a b c]. unfold double_cond in Hc.
  cbn [d_bit d_a d_b] in *. apply Z.ltb_lt in Hc.
  remember (bits_left bit) as j eqn:Ej.
  destruct (Z.eqb_spec j 0) as [Hz | Hnz]; [lia|].
  clear Ej. subst bit.
  destruct (mask_next j ltac:(lia)) as [Hleft Hnext].
  pose proof (to_uint_bound k) as Hu.
  pose proof (prefix_nonneg (to_uint k) j ltac:(lia)) as Hm.
  pose proof (prefix_step (to_uint k) j ltac:(lia)) as Hstep.
  destruct (F_doubling_up (prefix (to_uint k) j) Hm) as [H2m H2m1].
  pose proof (F_step (2 * prefix (to_uint k) j) ltac:(lia)) as H2m2.
  assert (Hdone :
    forall a' b' c',
      a' = F (prefix (to_uint k) (j - 1)) ->
      b' = F (prefix (to_uint k) (j - 1) + 1) ->
      double_inv k {| d_bit := to_uint (Z.shiftr (2 ^ (j - 1)) 1);
                      d_a := a'; d_b := b'; d_c := c' |} /\
      bits_left (to_uint (Z.shiftr (2 ^ (j - 1)) 1)) = j - 1).
  { intros a' b' c' Ha' Hb'. unfold double_inv. cbn [d_bit d_a d_b].
    rewrite Hleft. repeat split; try assumption; lia. }
  unfold double_body. cbn [d_bit d_a d_b].
  rewrite land_pow2 by lia.
  destruct (land_1_cases (Z.shiftr (to_uint k) (j - 1))) as [Hlow | Hlow];
    rewrite Hlow in *; cbn [Z.eqb negb]; apply Hdone; rewrite Hstep.
  - rewrite Z.add_0_r, H2m, Ha, Hb. ring.
  - rewrite Z.add_0_r, H2m1, Ha, Hb. ring.
  - rewrite H2m1, Ha, Hb. ring.
  - replace (2 * prefix (to_uint k) j + 1 + 1)
      with (2 * prefix (to_uint k) j + 2) by lia.
    rewrite H2m2, H2m1, H2m, Ha, Hb. ring.
Qed.

Lemma double_loop_correct (fuel : nat) (k : Z) :
  (64 <= fuel)%nat ->
  exists s, for_loop fuel double_cond (double_body k) double_init = Done s /\
            d_bit s = 0 /\ d_a s = F (to_uint k) /\ d_b s = F (to_uint k + 1).
Proof.
  intros Hfuel.
  destruct (for_loop_total double_cond (double_body k) (double_inv k)
              (fun s => Z.to_nat (bits_left (d_bit s))))
    with (fuel := fuel) (s := double_init)
    as (s & Hrun & (Hj & Hbit & Ha & Hb) & Hexit).
  - intros t Ht Hc.
    destruct (double_inv_step k t Ht Hc) as [Hinv Hdec].
    split; [exact Hinv|]. rewrite Hdec.
    destruct Ht as (Hj & Hbit & _). unfold double_cond in Hc.
    apply Z.ltb_lt in Hc.
    destruct (Z.eqb_spec (bits_left (d_bit t)) 0); lia.
  - apply double_inv_init.
  - change (Z.to_nat (bits_left (d_bit double_init))) with 64%nat. exact Hfuel.
  - exists s. unfold double_cond in Hexit. apply Z.ltb_ge in Hexit.
    destruct (Z.eqb_spec (bits_left (d_bit s)) 0) as [Hz | Hnz].
    + rewrite Hz, prefix_0 in Ha, Hb. auto.
    + assert (0 < 2 ^ (bits_left (d_bit s) - 1))
        by (apply Z.pow_pos_nonneg; lia).
      lia.
Qed.

Lemma fibDouble_correct (fuel : nat) (k : Z) :
  (64 <= fuel)%nat -> fibDouble fuel k = ([], Done (F (to_uint k))).
Proof.
  intros Hfuel.
  destruct (double_loop_correct fuel k Hfuel) as (s & Hrun & _ & Ha & _).
  unfold fibDouble. rewrite Hrun. cbn. rewrite Ha. reflexivity.
Qed.

Example fibDouble_run_10 : fibDouble 64 10 = ([], Done 55).
Proof. vm_compute. reflexivity. Qed.

Example fibDouble_run_short : fibDouble 63 10 = ([], OutOfFuel).
Proof. vm_compute. reflexivity. Qed.

(** X1: for every index k >= 0 that is a Go [int], [fibDouble k] returns
    F(k), the value [Fibonacci k] returns. *)
Theorem fibDouble_nonnegative_index (fuel : nat) (k : Z) :
  (100 <= fuel)%nat -> 0 <= k -> is_int k ->
  fibDouble fuel k = ([], Done (F k)) /\
  result (fibDouble fuel k) = result (Fibonacci fuel k).
Proof.
  intros Hfuel Hk Hint.
  rewrite fibDouble_correct by lia.
  rewrite to_uint_small by int_range.
  split; [reflexivity|].
  rewrite Fibonacci_result by assumption. reflexivity.
Qed.

Lemma fibDouble_nonnegative_index_witness :
  fibDouble 100 3000 = ([], Done (F 3000)) /\
  result (fibDouble 100 3000) = result (Fibonacci 100 3000).
Proof.
  apply (fibDouble_nonnegative_index 100 3000);
    [lia | lia | apply is_int_small; lia].
Defined.

(** X2: [fibDouble] does not clamp a negative index to 0 as [Fibonacci] and
    the other evaluators do: it reads k as [uint64(k)] and computes
    F(k + 2^64), a positive number, so the two disagree on every k < 0. *)
Theorem fibDouble_negative_index (fuel : nat) (k : Z) :
  (64 <= fuel)%nat -> k < 0 -> is_int k ->
  fibDouble fuel k = ([], Done (F (k + 2 ^ 64))) /\
  0 < F (k + 2 ^ 64) /\
  Fibonacci fuel k = ([], Done 0) /\
  result (fibDouble fuel k) <> result (Fibonacci fuel k).
Proof.
  intros Hfuel Hk Hint.
  assert (Hpos : 0 < F (k + 2 ^ 64)).
  { unfold F. apply fib_pos.
    assert (1 <= k + 2 ^ 64) by int_range. lia. }
  assert (HF : Fibonacci fuel k = ([], Done 0)).
  { rewrite Fibonacci_unfold. destruct (Z.ltb_spec k 1); [reflexivity | lia]. }
  rewrite fibDouble_correct, to_uint_negative by assumption.
  repeat split; try assumption.
  rewrite HF. unfold result. cbn [snd]. intros H.
  assert (Hz : F (k + 2 ^ 64) = 0) by (injection H as H; exact H). lia.
Qed.

Lemma fibDouble_negative_index_witness :
  fibDouble 64 (-1) = ([], Done (F (-1 + 2 ^ 64))) /\
  0 < F (-1 + 2 ^ 64) /\
  Fibonacci 64 (-1) = ([], Done 0) /\
  result (fibDouble 64 (-1)) <> result (Fibonacci 64 (-1)).
Proof.
  apply (fibDouble_negative_index 64 (-1));
    [lia | lia | apply is_int_small; lia].
Defined.

(** X3: the loop of [fibDouble] visits the 64 bit positions of
    [uint64(k)] from the top: in every state it passes through, the mask is
    [2^(j-1)] with j positions left (0 when none is left) and (a, b) is
    (F(m), F(m+1)) for the prefix m of [uint64(k)] above them.  It runs
    exactly 64 iterations whatever k is: less fuel is exhausted, 64
    suffices. *)
Theorem fibDouble_loop (fuel : nat) (k : Z) :
  (forall s : double_state,
     reaches double_cond (double_body k) double_init s ->
     exists j : Z,
       0 <= j <= 64 /\
       d_bit s = (if j =? 0 then 0 else 2 ^ (j - 1)) /\
       (d_a s, d_b s) =
       (F (prefix (to_uint k) j), F (prefix (to_uint k) j + 1))) /\
  ((fuel < 64)%nat -> fibDouble fuel k = ([], OutOfFuel)) /\
  ((64 <= fuel)%nat -> exists v : Z, fibDouble fuel k = ([], Done v)).
Proof.
  split; [|split].
  - intros s Hs.
    assert (double_inv k s) as (Hj & Hbit & Ha & Hb).
    { apply reaches_invariant
        with (cond := double_cond) (body := double_body k) (s0 := double_init).
      - apply double_inv_init.
      - intros t Ht Hc. apply double_inv_step; assumption.
      - exact Hs. }
    exists (bits_left (d_bit s)).
    repeat split; try assumption; try lia.
    rewrite Ha, Hb. reflexivity.
  - intros Hfuel. unfold fibDouble.
    rewrite (for_loop_out_of_fuel double_cond (double_body k) (double_inv k)
               (fun s => Z.to_nat (bits_left (d_bit s)))).
    + reflexivity.
    + intros t Ht Hc.
      destruct (double_inv_step k t Ht Hc) as [Hinv Hdec].
      split; [exact Hinv|]. rewrite Hdec.
      destruct Ht as (Hj & Hbit & _). unfold double_cond in Hc.
      apply Z.ltb_lt in Hc.
      destruct (Z.eqb_spec (bits_left (d_bit t)) 0); lia.
    + intros t (Hj & Hbit & _) Hc. unfold double_cond in Hc.
      apply Z.ltb_ge in Hc.
      destruct (Z.eqb_spec (bits_left (d_bit t)) 0) as [Hz | Hnz]; [lia|].
      assert (0 < 2 ^ (bits_left (d_bit t) - 1))
        by (apply Z.pow_pos_nonneg; lia).
      lia.
    + apply double_inv_init.
    + change (Z.to_nat (bits_left (d_bit double_init))) with 64%nat.
      exact Hfuel.
  - intros Hfuel. exists (F (to_uint k)). apply fibDouble_correct; exact Hfuel.
Qed.

Lemma fibDouble_loop_witness :
  fibDouble 63 5 = ([], OutOfFuel) /\
  exists v : Z, fibDouble 64 5 = ([], Done v).
Proof.
  split.
  - apply (proj1 (proj2 (fibDouble_loop 63 5))). lia.
  - apply (proj2 (proj2 (fibDouble_loop 64 5))). lia.
Defined.

(** ** The loop of [fibTakahashi] *)

Lemma lucas_F (k : Z) :
  1 <= k -> lucas (Z.to_nat k) = F (k - 1) + F (k + 1).
Proof.
  intros Hk. unfold lucas, F.
  replace (Z.to_nat (k + 1)) with (S (Z.to_nat k)) by lia.
  replace (Z.to_nat k) with (S (Z.to_nat (k - 1))) by lia.
  rewrite fib_SS. ring.
Qed.

Lemma taka_loop_total (fuel : nat) (n : Z) :
  3 <= n -> is_int n -> (Z.to_nat (Z.log2 n - 1) <= fuel)%nat ->
  exists s, for_loop fuel (taka_cond (Z.log2 n)) (taka_body n)
              (taka_init (Z.log2 n)) = Done s /\
            taka_inv n (Z.log2 n) s /\ t_i s = Z.log2 n.
Proof.
  intros Hn Hint Hfuel.
  pose proof (log2_int_bound n ltac:(lia) Hint) as Hl.
  assert (1 <= Z.log2 n) by (apply Z.log2_le_pow2; lia).
  destruct (for_loop_total (taka_cond (Z.log2 n)) (taka_body n)
              (taka_inv n (Z.log2 n))
              (fun s => Z.to_nat (Z.log2 n - t_i s)))
    with (fuel := fuel) (s := taka_init (Z.log2 n))
    as (s & Hrun & Hinv & Hexit).
  - intros t Ht Hc.
    destruct (taka_inv_step n (Z.log2 n) t ltac:(lia) ltac:(lia) ltac:(lia)
                Ht Hc) as [Hinv Hinc].
    split; [exact Hinv|]. rewrite Hinc.
    unfold taka_cond in Hc. apply Z.ltb_lt in Hc. lia.
  - apply taka_inv_init; assumption.
  - cbn [taka_init t_i]. exact Hfuel.
  - exists s. split; [exact Hrun|]. split; [exact Hinv|].
    unfold taka_cond in Hexit. apply Z.ltb_ge in Hexit.
    destruct Hinv as (Hi & _). lia.
Qed.

(** X4: in [fibTakahashi], for every n >= 3, every state the loop passes
    through has the mask on bit [bits - i] and holds, for the prefix k >= 1
    of n above that bit, f = F(k), l = L(k) = F(k-1) + F(k+1) (the Lucas
    number) and sign = (-1)^k; when the loop ends i = bits, and the
    statements after it turn that state into F(n). *)
Theorem fibTakahashi_invariant (n : Z) :
  3 <= n -> is_int n ->
  (forall s : taka_state,
     reaches (taka_cond (Z.log2 n)) (taka_body n) (taka_init (Z.log2 n)) s ->
     1 <= t_i s <= Z.log2 n /\
     t_mask s = 2 ^ (Z.log2 n - t_i s) /\
     1 <= prefix n (Z.log2 n - t_i s + 1) /\
     t_f s = F (prefix n (Z.log2 n - t_i s + 1)) /\
     t_l s = F (prefix n (Z.log2 n - t_i s + 1) - 1) +
             F (prefix n (Z.log2 n - t_i s + 1) + 1) /\
     t_sign s = alt (Z.to_nat (prefix n (Z.log2 n - t_i s + 1)))) /\
  (forall fuel : nat,
     (Z.to_nat (Z.log2 n) <= fuel)%nat ->
     exists s : taka_state,
       for_loop fuel (taka_cond (Z.log2 n)) (taka_body n)
         (taka_init (Z.log2 n)) = Done s /\
       t_i s = Z.log2 n /\
       taka_final n s = F n /\
       fibTakahashi fuel n = ([Call f_log2 n], Done (taka_final n s))).
Proof.
  intros Hn Hint.
  pose proof (log2_int_bound n ltac:(lia) Hint) as Hl.
  assert (1 <= Z.log2 n) by (apply Z.log2_le_pow2; lia).
  split.
  - intros s Hs.
    assert (taka_inv n (Z.log2 n) s) as (Hi & Hmask & Hf & Hlu & Hsign).
    { apply reaches_invariant
        with (cond := taka_cond (Z.log2 n)) (body := taka_body n)
             (s0 := taka_init (Z.log2 n)).
      - apply taka_inv_init; assumption.
      - intros t Ht Hc.
        apply (taka_inv_step n (Z.log2 n) t); assumption || lia.
      - exact Hs. }
    pose proof (prefix_pos n (Z.log2 n - t_i s + 1) ltac:(lia) ltac:(lia))
      as Hp.
    repeat split; try assumption; try lia.
    rewrite Hlu. apply lucas_F. exact Hp.
  - intros fuel Hfuel.
    destruct (taka_loop_total fuel n Hn Hint ltac:(lia))
      as (s & Hrun & Hinv & Hi).
    pose proof (taka_final_correct n (Z.log2 n) s ltac:(lia) ltac:(lia)
                  Hinv Hi) as Hfin.
    exists s. repeat split; try assumption.
    rewrite Hfin, fibTakahashi_correct by (assumption || lia).
    destruct (Z.leb_spec n 2); [lia | reflexivity].
Qed.

Lemma fibTakahashi_invariant_witness :
  exists s : taka_state,
    for_loop 64 (taka_cond (Z.log2 10000)) (taka_body 10000)
      (taka_init (Z.log2 10000)) = Done s /\
    t_i s = Z.log2 10000 /\
    taka_final 10000 s = F 10000 /\
    fibTakahashi 64 10000 = ([Call f_log2 10000], Done (taka_final 10000 s)).
Proof.
  refine (proj2 (fibTakahashi_invariant 10000 _ _) 64%nat _);
    [lia | apply is_int_small; lia | vm_compute; lia].
Defined.

(** ** All evaluators on all indices *)

(** X5: on every Go [int] n, negative and zero included, each of
    [fibSeries], [fibBlenkinsop] and [fibTakahashi] called on its own
    returns what the dispatcher returns, F(n) with F(n) = 0 for n < 1; for
    n < 1 none of them runs a loop or calls [log2]. *)
Theorem evaluators_match_dispatcher (fuel : nat) (n : Z) :
  (100 <= fuel)%nat -> (Z.to_nat n <= fuel)%nat -> is_int n ->
  result (fibSeries fuel n) = result (Fibonacci fuel n) /\
  result (fibBlenkinsop fuel n) = result (Fibonacci fuel n) /\
  result (fibTakahashi fuel n) = result (Fibonacci fuel n) /\
  result (Fibonacci fuel n) = Done (F n) /\
  (n < 1 ->
   forall fuel' : nat,
     fibSeries fuel' n = ([], Done 0) /\
     fibBlenkinsop fuel' n = ([], Done 0) /\
     fibTakahashi fuel' n = ([], Done 0)).
Proof.
  intros Hfuel Hfn Hint.
  assert (Hlow : n < 1 ->
                 forall fuel' : nat,
                   fibSeries fuel' n = ([], Done 0) /\
                   fibBlenkinsop fuel' n = ([], Done 0) /\
                   fibTakahashi fuel' n = ([], Done 0)).
  { intros Hn fuel'. unfold fibSeries, fibBlenkinsop, fibTakahashi.
    destruct (Z.ltb_spec n 1); [|lia]. destruct (Z.leb_spec n 0); [|lia].
    repeat split; reflexivity. }
  rewrite Fibonacci_result by assumption.
  destruct (Z.lt_ge_cases n 1) as [Hn | Hn].
  - destruct (Hlow Hn fuel) as (-> & -> & ->).
    rewrite F_neg by lia. do 4 (split; [reflexivity|]). exact Hlow.
  - assert (Z.to_nat (Z.log2 n) <= fuel)%nat
      by (pose proof (log2_le_self n Hn); lia).
    rewrite fibSeries_correct, fibBlenkinsop_correct, fibTakahashi_correct,
      series_spec_F by assumption.
    destruct (Z.leb_spec n 2); do 4 (split; [reflexivity|]); exact Hlow.
Qed.

Lemma evaluators_match_dispatcher_witness :
  result (fibSeries 100 (-3)) = result (Fibonacci 100 (-3)) /\
  result (fibBlenkinsop 100 (-3)) = result (Fibonacci 100 (-3)) /\
  result (fibTakahashi 100 (-3)) = result (Fibonacci 100 (-3)) /\
  result (Fibonacci 100 (-3)) = Done (F (-3)).
Proof.
  pose proof (evaluators_match_dispatcher 100 (-3)
                ltac:(lia) ltac:(vm_compute; lia)
                ltac:(apply is_int_small; lia)) as (H1 & H2 & H3 & H4 & _).
  exact (conj H1 (conj H2 (conj H3 H4))).
Defined.

(** ** [log2] on every argument *)

(** X6: on a Go [int], the loop of [log2] terminates exactly when the
    argument is not negative; [log2 0] is 0, without an iteration. *)
Theorem log2_terminates_iff (n : Z) :
  is_int n ->
  ((exists (fuel : nat) (r : Z), log2 fuel n = Done r) <-> 0 <= n) /\
  (forall fuel : nat, log2 fuel 0 = Done 0).
Proof.
  intros Hint.
  assert (H0 : forall fuel : nat, log2 fuel 0 = Done 0)
    by (intros [|fuel]; reflexivity).
  split; [|exact H0]. split.
  - intros (fuel & r & Hrun).
    destruct (Z.lt_ge_cases n 0) as [Hneg | Hpos]; [|exact Hpos].
    rewrite log2_negative_diverges in Hrun by exact Hneg. discriminate Hrun.
  - intros Hn. destruct (Z.eq_dec n 0) as [-> | Hnz].
    + exists 0%nat, 0. apply H0.
    + exists 63%nat, (Z.log2 n).
      apply log2_correct; [lia | exact Hint |].
      apply log2_fuel; [lia | exact Hint | lia].
Qed.

Lemma log2_terminates_iff_witness :
  ((exists (fuel : nat) (r : Z), log2 fuel (-1) = Done r) <-> 0 <= -1) /\
  (forall fuel : nat, log2 fuel 0 = Done 0).
Proof.
  apply (log2_terminates_iff (-1)). apply is_int_small. lia.
Defined.

(** ** The table holds all the values that fit *)

Lemma F_92 : F 92 = 7540113804746346429.
Proof. rewrite F_eval. vm_compute. reflexivity. Qed.

Lemma F_93 : F 93 = 12200160415121876738.
Proof. rewrite F_eval. vm_compute. reflexivity. Qed.

(** X7: the table is as long as a signed 64-bit entry allows: for every
    index n >= 0, the value [Fibonacci n] returns fits in an [int64]
    exactly when n is an index of the table. *)
Theorem table_is_maximal (fuel : nat) (n : Z) :
  (100 <= fuel)%nat -> 0 <= n -> is_int n ->
  exists v : Z,
    result (Fibonacci fuel n) = Done v /\
    (v <= int_max <-> n < Z.of_nat (length fibonacciTable)).
Proof.
  intros Hfuel Hn Hint. exists (F n).
  split; [apply Fibonacci_result; assumption|].
  rewrite table_length. change (Z.of_nat 93) with 93.
  split.
  - intros Hv. destruct (Z.lt_ge_cases n 93) as [Hlt | Hge]; [exact Hlt|].
    pose proof (F_mono 93 n Hge) as Hm. rewrite F_93 in Hm.
    unfold int_max in Hv. lia.
  - intros Hlt. pose proof (F_mono n 92 ltac:(lia)) as Hm.
    rewrite F_92 in Hm. unfold int_max. lia.
Qed.

Lemma table_is_maximal_witness :
  exists v : Z,
    result (Fibonacci 100 93) = Done v /\
    (v <= int_max <-> 93 < Z.of_nat (length fibonacciTable)).
Proof.
  apply (table_is_maximal 100 93); [lia | lia | apply is_int_small; lia].
Defined.

(** ** Order and size of the results *)

(** X8: the values [Fibonacci] returns are never negative, do not decrease
    with the index and increase strictly from index 2 on; the value at
    n >= 1 is positive, and the value at n >= 0 is below 2^n. *)
Theorem Fibonacci_monotone_bounded (fuel : nat) (m n : Z) :
  (100 <= fuel)%nat -> is_int m -> is_int n -> m <= n ->
  exists a b : Z,
    result (Fibonacci fuel m) = Done a /\
    result (Fibonacci fuel n) = Done b /\
    0 <= a <= b /\
    (2 <= m < n -> a < b) /\
    (1 <= n -> 0 < b) /\
    (0 <= n -> b < 2 ^ n).
Proof.
  intros Hfuel Hm Hn Hle. exists (F m), (F n).
  split; [apply Fibonacci_result; assumption|].
  split; [apply Fibonacci_result; assumption|].
  split; [split; [apply F_nonneg | apply F_mono; exact Hle]|].
  split; [|split].
  - intros Hlt. unfold F. apply fib_strict; lia.
  - intros H1. unfold F. apply fib_pos. lia.
  - intros H0. unfold F.
    pose proof (fib_lt_pow2 (Z.to_nat n)) as Hb.
    rewrite Z2Nat.id in Hb by exact H0. exact Hb.
Qed.

Lemma Fibonacci_monotone_bounded_witness :
  exists a b : Z,
    result (Fibonacci 100 92) = Done a /\
    result (Fibonacci 100 6000) = Done b /\
    0 <= a <= b /\
    (2 <= 92 < 6000 -> a < b) /\
    (1 <= 6000 -> 0 < b) /\
    (0 <= 6000 -> b < 2 ^ 6000).
Proof.
  apply (Fibonacci_monotone_bounded 100 92 6000);
    [lia | apply is_int_small; lia | apply is_int_small; lia | lia].
Defined.

(** ** Iteration counts *)

Lemma log2_out_of_fuel (fuel : nat) (n : Z) :
  1 <= n -> is_int n -> (fuel < Z.to_nat (Z.log2 n))%nat ->
  log2 fuel n = OutOfFuel.
Proof.
  intros Hn Hint Hfuel.
  pose proof (log2_int_bound n Hn Hint) as Hl.
  unfold log2.
  apply (for_loop_out_of_fuel (log2_cond n) log2_body
           (fun bits => 0 <= bits <= Z.log2 n)
           (fun bits => Z.to_nat (Z.log2 n - bits))).
  - intros bits Hb Hc. unfold log2_cond, log2_body, shr in *.
    rewrite uint_of_small_int in Hc by lia.
    rewrite wrap_int_small by int_range.
    apply negb_true_iff, Z.eqb_neq in Hc.
    assert (~ Z.log2 n < bits + 1).
    { intros Hlt. apply Hc. apply Z.shiftr_eq_0; lia. }
    lia.
  - intros bits Hb Hc. unfold log2_cond, shr in Hc.
    rewrite uint_of_small_int in Hc by lia.
    apply negb_false_iff, Z.eqb_eq, Z.shiftr_eq_0_iff in Hc. lia.
  - lia.
  - rewrite Z.sub_0_r. exact Hfuel.
Qed.

Lemma blenk_loop_out_of_fuel (fuel : nat) (n : Z) :
  1 <= n -> is_int n -> (fuel < Z.to_nat (Z.log2 n))%nat ->
  blenk_loop fuel n (Z.log2 n) = OutOfFuel.
Proof.
  intros Hn Hint Hfuel.
  pose proof (log2_int_bound n Hn Hint) as Hl.
  unfold blenk_loop.
  apply (for_loop_out_of_fuel blenk_cond (blenk_body n) (blenk_inv n)
           (fun s => Z.to_nat (b_h s))).
  - intros t Ht Hc.
    destruct (blenk_inv_step n t Hn Hint Ht Hc) as [Hinv Hdec].
    split; [exact Hinv|]. rewrite Hdec.
    unfold blenk_cond in Hc. apply Z.ltb_lt in Hc. lia.
  - intros t _ Hc. unfold blenk_cond in Hc. apply Z.ltb_ge in Hc. lia.
  - apply blenk_inv_init; assumption.
  - unfold blenk_init. cbn [b_h]. rewrite to_uint_small by lia. exact Hfuel.
Qed.

Lemma taka_loop_out_of_fuel (fuel : nat) (n : Z) :
  3 <= n -> is_int n -> (fuel < Z.to_nat (Z.log2 n - 1))%nat ->
  for_loop fuel (taka_cond (Z.log2 n)) (taka_body n) (taka_init (Z.log2 n))
  = OutOfFuel.
Proof.
  intros Hn Hint Hfuel.
  pose proof (log2_int_bound n ltac:(lia) Hint) as Hl.
  apply (for_loop_out_of_fuel (taka_cond (Z.log2 n)) (taka_body n)
           (taka_inv n (Z.log2 n))
           (fun s => Z.to_nat (Z.log2 n - t_i s))).
  - intros t Ht Hc.
    destruct (taka_inv_step n (Z.log2 n) t ltac:(lia) ltac:(lia) ltac:(lia)
                Ht Hc) as [Hinv Hinc].
    split; [exact Hinv|]. rewrite Hinc.
    unfold taka_cond in Hc. apply Z.ltb_lt in Hc. lia.
  - intros t _ Hc. unfold taka_cond in Hc. apply Z.ltb_ge in Hc. lia.
  - apply taka_inv_init; assumption.
  - cbn [taka_init t_i]. exact Hfuel.
Qed.

(** X9: the bit scans are logarithmic.  For n >= 1 the loop of [log2] and
    the loop of [fibBlenkinsop] each run exactly floor(log2(n)) iterations,
    and for n >= 3 the loop of [fibTakahashi] runs floor(log2(n)) - 1: fuel
    for that many iterations finishes the loop, any less is exhausted. *)
Theorem bit_scan_iterations (fuel : nat) (n : Z) :
  1 <= n -> is_int n ->
  ((Z.to_nat (Z.log2 n) <= fuel)%nat ->
   log2 fuel n = Done (Z.log2 n) /\
   exists s : blenk_state, blenk_loop fuel n (Z.log2 n) = Done s) /\
  ((fuel < Z.to_nat (Z.log2 n))%nat ->
   log2 fuel n = OutOfFuel /\
   blenk_loop fuel n (Z.log2 n) = OutOfFuel /\
   result (fibBlenkinsop fuel n) = OutOfFuel) /\
  (3 <= n ->
   ((Z.to_nat (Z.log2 n - 1) <= fuel)%nat ->
    exists s : taka_state,
      for_loop fuel (taka_cond (Z.log2 n)) (taka_body n)
        (taka_init (Z.log2 n)) = Done s) /\
   ((fuel < Z.to_nat (Z.log2 n - 1))%nat ->
    for_loop fuel (taka_cond (Z.log2 n)) (taka_body n)
      (taka_init (Z.log2 n)) = OutOfFuel)).
Proof.
  intros Hn Hint. split; [|split].
  - intros Hfuel. split; [apply log2_correct; assumption|].
    destruct (blenk_loop_correct fuel n Hn Hint Hfuel) as (s & Hrun & _).
    exists s. exact Hrun.
  - intros Hfuel.
    pose proof (log2_out_of_fuel fuel n Hn Hint Hfuel) as Hlg.
    split; [exact Hlg|].
    split; [apply blenk_loop_out_of_fuel; assumption|].
    unfold fibBlenkinsop, call_log2. destruct (Z.ltb_spec n 1); [lia|].
    rewrite Hlg. reflexivity.
  - intros H3. split.
    + intros Hfuel.
      destruct (taka_loop_total fuel n H3 Hint Hfuel) as (s & Hrun & _).
      exists s. exact Hrun.
    + intros Hfuel. apply taka_loop_out_of_fuel; assumption.
Qed.

Lemma bit_scan_iterations_witness :
  (log2 12 5504 = Done (Z.log2 5504) /\
   exists s : blenk_state, blenk_loop 12 5504 (Z.log2 5504) = Done s) /\
  (log2 11 5504 = OutOfFuel /\
   blenk_loop 11 5504 (Z.log2 5504) = OutOfFuel /\
   result (fibBlenkinsop 11 5504) = OutOfFuel).
Proof.
  split.
  - refine (proj1 (bit_scan_iterations 12 5504 _ _) _);
      [lia | apply is_int_small; lia | vm_compute; lia].
  - refine (proj1 (proj2 (bit_scan_iterations 11 5504 _ _)) _);
      [lia | apply is_int_small; lia | vm_compute; lia].
Defined.

(** X10: [fibSeries] is linear: for n >= 1 its loop runs exactly n
    iterations, so the run finishes with fuel n and exhausts any less. *)
Theorem fibSeries_iterations (fuel : nat) (n : Z) :
  1 <= n -> is_int n ->
  ((Z.to_nat n <= fuel)%nat -> fibSeries fuel n = ([], Done (F n))) /\
  ((fuel < Z.to_nat n)%nat -> fibSeries fuel n = ([], OutOfFuel)).
Proof.
  intros Hn Hint. split; intros Hfuel.
  - rewrite fibSeries_correct, series_spec_F by assumption. reflexivity.
  - unfold fibSeries. destruct (Z.ltb_spec n 1); [lia|].
    rewrite (for_loop_out_of_fuel (series_cond n) series_body
               (fun s => 0 <= s_i s <= n)
               (fun s => Z.to_nat (n - s_i s))).
    + reflexivity.
    + intros [i a b] Hi Hc. unfold series_cond in Hc. cbn [s_i] in *.
      apply Z.ltb_lt in Hc. unfold series_body. cbn [s_i].
      rewrite wrap_int_small by int_range. lia.
    + intros t Hi Hc. unfold series_cond in Hc. apply Z.ltb_ge in Hc. lia.
    + cbn [s_i]. lia.
    + cbn [s_i]. lia.
Qed.

Lemma fibSeries_iterations_witness :
  fibSeries 95 95 = ([], Done (F 95)) /\ fibSeries 94 95 = ([], OutOfFuel).
Proof.
  split.
  - refine (proj1 (fibSeries_iterations 95 95 _ _) _);
      [lia | apply is_int_small; lia | vm_compute; lia].
  - refine (proj2 (fibSeries_iterations 94 95 _ _) _);
      [lia | apply is_int_small; lia | vm_compute; lia].
Defined.
